(** * GraKeL: the Weisfeiler-Lehman subtree kernel (grakel/kernels/subtree_wl.py)

    A shallow embedding of the class [subtree_wl]: its pairwise kernel value
    [pairwise_operation] and its input parser [parse_input].

    Python values are modelled as follows.
    - An [int] is a [Z] (Python integers do not wrap around).
    - A [dict] is a [gmap]; [len(d)] is [size d], [x in d] is
      [is_Some (d !! x)], [for x in d] ranges over the keys of
      [map_to_list d], and [d[x]] is [d !!! x] (both subscripts of the source
      are guarded, so the default of [!!!] stands for an unreachable
      [KeyError]).  The insertion order of a dict is not modelled: the only
      loop over a dict is the summation of [pairwise_operation].
    - A [list] is a [list]; [len(l)] is [length l].
    - An exception is a value of [exn]; a call that may raise returns a
      [result].
    - A warning is the text passed to [warnings.warn]; the texts are
      collected in order of emission (what the warning filters then do with
      them is not modelled).
    - [collections.Iterable] is the abstract base class [Iterable]. *)

From Stdlib Require Import ZArith Lia.
From stdpp Require Import gmap strings list fin_maps pretty.

(** ** Sums of integers *)

(** Python's [sum(iterable)]: start from [0] and add the items from left to
    right. *)
Definition py_sum (zs : list Z) : Z := foldl Z.add 0%Z zs.

(** Mathematical sum of [f] over a list, used to state what [py_sum]
    computes. *)
Definition sumZ {A} (f : A → Z) (l : list A) : Z :=
  foldr (λ x s, (f x + s)%Z) 0%Z l.

(** ** Inverted label dictionaries and the kernel value *)

Section kernel.
Context `{Countable label} `{Countable node}.

(** An inverted label dictionary: label ↦ list of the nodes carrying it. *)
Abbreviation invdict := (gmap label (list node)).

(** [for x in d]. *)
Definition dict_keys (d : invdict) : list label := (map_to_list d).*1.

(** [len(d[x])], as a Python integer. *)
Definition bucket_len (d : invdict) (x : label) : Z :=
  Z.of_nat (length (d !!! x)).

(** The generator expression and [sum] of line 102:
    [sum(len(ls[x])*len(lb[x]) for x in ls if x in lb)]. *)
Definition sum_shared (ls lb : invdict) : Z :=
  py_sum ((λ x, bucket_len ls x * bucket_len lb x)%Z
            <$> filter (λ x, is_Some (lb !! x)) (dict_keys ls)).

(** [subtree_wl.pairwise_operation], lines 98-102. *)
Definition pairwise_operation (lx ly : invdict) : Z :=
  let '(ls, lb) :=
    if bool_decide (size lx < size ly) then (lx, ly) else (ly, lx) in
  sum_shared ls lb.

(** *** What the specification says the value is *)

(** [Σ_{label ∈ keys(a) ∩ keys(b)} |a[label]| · |b[label]|]. *)
Definition spec_score (a b : invdict) : Z :=
  sumZ (λ x, bucket_len a x * bucket_len b x)%Z
       (elements (dom a ∩ dom b : gset label)).

(** The nodes of a summary (the concatenation of its buckets), and the
    label of a node: the key of the (first) bucket that lists it. *)
Definition nodes (d : invdict) : list node := mjoin (map_to_list d).*2.

Fixpoint label_in (es : list (label * list node)) (v : node) : option label :=
  match es with
  | [] => None
  | (k, vs) :: es' => if decide (v ∈ vs) then Some k else label_in es' v
  end.

Definition label_of (d : invdict) (v : node) : option label :=
  label_in (map_to_list d) v.

(** The Dirac delta on labels. *)
Definition delta (l1 l2 : option label) : Z :=
  if decide (l1 = l2) then 1%Z else 0%Z.

(** The kernel of the class docstring (lines 18-19):
    [k(X,Y) = Σ_{v ∈ V1} Σ_{u ∈ V2} δ(l(v), l(u))]. *)
Definition node_pair_count (a b : invdict) : Z :=
  sumZ (λ v, sumZ (λ u, delta (label_of a v) (label_of b u)) (nodes b))
       (nodes a).

(** A well-formed summary: every key is a label that is present (its bucket
    lists a node), and every node appears in exactly one bucket, once. *)
Definition well_formed (d : invdict) : Prop :=
  (∀ k vs, d !! k = Some vs → vs ≠ []) ∧ NoDup (nodes d).

Global Instance well_formed_dec d : Decision (well_formed d).
Proof.
  unfold well_formed.
  apply and_dec; [|apply _].
  destruct (decide (Forall (λ kv, kv.2 ≠ []) (map_to_list d))) as [Hy|Hn];
    [left|right]; rewrite Forall_forall in *.
  - intros k vs Hk. apply (Hy (k, vs)). by apply elem_of_map_to_list.
  - intros Hd. apply Hn. intros [k vs] Hin. apply (Hd k).
    by apply elem_of_map_to_list.
Defined.

End kernel.

(** ** Exceptions, results and warnings *)

(** The exceptions a call can end with: the [ValueError]s that
    [parse_input] raises itself (lines 58, 75-78 and 81), with their message,
    and an exception of class [cls] raised inside a callee. *)
Inductive exn :=
  | ValueError (msg : string)
  | ForeignError (cls : string).

Inductive result (A : Type) :=
  | Ok (a : A)
  | Raise (e : exn).
Arguments Ok {A} a.
Arguments Raise {A} e.

Definition bind {A B} (r : result A) (k : A → result B) : result B :=
  match r with
  | Ok a => k a
  | Raise e => Raise e
  end.

Definition newline : string := String (Ascii.ascii_of_nat 10) EmptyString.

(** The message of line 58. *)
Definition not_iterable_msg : string := "input must be an iterable" +:+ newline.

(** The message of lines 75-78. *)
Definition malformed_msg : string :=
  "each element of X must be either a " +:+
  "graph object or a list with at least " +:+
  "a graph like object and node labels " +:+
  "dict " +:+ newline.

(** The message of line 81. *)
Definition empty_msg : string := "parsed input is empty".

(** The warning of lines 67-68; [str(i)] is the decimal numeral of [i]. *)
Definition empty_warning (i : nat) : string :=
  "Ignoring empty element" +:+ " on index: " +:+ pretty i.

(** [msg] cites the index [i]: the decimal numeral of [i] occurs in it. *)
Definition cites_index (msg : string) (i : nat) : bool :=
  bool_decide (is_Some (String.index 0 (pretty i) msg)).

(** The character [c] occurs in [s]. *)
Fixpoint occurs (c : Ascii.ascii) (s : string) : bool :=
  match s with
  | EmptyString => false
  | String b s' => bool_decide (c = b) || occurs c s'
  end.

(** [s] starts with a decimal digit. *)
Definition starts_with_digit (s : string) : Prop :=
  ∃ x s', s = String (pretty_N_char x) s'.

(** ** The input parser *)

Section parser.
Context `{Countable label} `{Countable node}.

Abbreviation invdict := (gmap label (list node)).

(** Modelled from the spec: the graph objects of [grakel.graph], whose source
    is not among the files verified here, are known to this class through one
    capability, [get_labels(purpose) -> mapping[node -> label]]. *)
Record graph := { get_labels : string → gmap node label }.

(** The Python objects that reach [parse_input].
    - [PyOther]: an object that is neither [Iterable] nor a graph instance
      (a number, [None], ...).
    - [PyNode n]: a node identifier as a value of its own, taken to be a
      scalar (it is what iterating a node-label dict yields).
    - [PyDict d]: a node-label dict; iterating it yields its keys.
    - [PyList xs]: a list, and any other [Iterable] that is not a graph
      instance (tuple, generator, ...), yielding [xs].
    - [PyGraph g]: an instance of the class [Graph] itself.  Modelled from
      the spec: [Graph] is a graph-object type apart from the positional
      iterables, so its instances are not [Iterable].
    - [PyGraphSub g it]: an instance of a proper subclass of [Graph]; [it]
      is [Some xs] when the subclass is also [Iterable], yielding [xs]. *)
#[warnings="-register-all"]
Inductive pyobj :=
  | PyOther
  | PyNode (n : node)
  | PyDict (d : gmap node label)
  | PyList (xs : list pyobj)
  | PyGraph (g : graph)
  | PyGraphSub (g : graph) (it : option (list pyobj)).

(** [list(x)] for an [Iterable] [x]; [None] when [x] is not [Iterable]. *)
Definition iterate (x : pyobj) : option (list pyobj) :=
  match x with
  | PyOther | PyNode _ | PyGraph _ => None
  | PyDict d => Some (PyNode <$> (map_to_list d).*1)
  | PyList xs => Some xs
  | PyGraphSub _ it => it
  end.

(** [isinstance(x, collections.Iterable)]. *)
Definition isinstance_Iterable (x : pyobj) : bool :=
  bool_decide (is_Some (iterate x)).

(** [list(x)], as an object (used where [x] is [Iterable]). *)
Definition py_list (x : pyobj) : pyobj := PyList (default [] (iterate x)).

(** [len(x)] for a list [x] (line 65 takes it of lists only: [and] does not
    evaluate it unless [is_iter] holds, and then [x] is [list(x)]). *)
Definition len (x : pyobj) : nat :=
  match x with
  | PyList xs => length xs
  | _ => 0
  end.

(** [x[j]] for a list [x]. *)
Definition getitem (x : pyobj) (j : nat) : result pyobj :=
  match x with
  | PyList xs =>
      match xs !! j with
      | Some y => Ok y
      | None => Raise (ForeignError "IndexError")
      end
  | _ => Raise (ForeignError "TypeError")
  end.

(** [type(x) is Graph]. *)
Definition type_is_Graph (x : pyobj) : bool :=
  match x with
  | PyGraph _ => true
  | _ => false
  end.

(** [x.get_labels(purpose=p)]. *)
Definition call_get_labels (x : pyobj) (p : string) : result pyobj :=
  match x with
  | PyGraph g | PyGraphSub g _ => Ok (PyDict (get_labels g p))
  | _ => Raise (ForeignError "AttributeError")
  end.

(** Modelled from the spec: [grakel.tools.inv_dict], whose source is not
    among the files verified here, on a node-label mapping: "group all node
    identifiers by their label value". *)
Definition inv_dict_map (d : gmap node label) : invdict :=
  map_fold (λ n l inv, <[l := inv !!! l ++ [n]]> inv) ∅ d.

(** What [inv_dict] does with an argument that is not a node-label mapping
    is said neither by the sources at hand nor by the spec: it is a
    parameter. *)
Variable inv_dict_other : pyobj → result invdict.

Definition inv_dict (o : pyobj) : result invdict :=
  match o with
  | PyDict d => Ok (inv_dict_map d)
  | _ => inv_dict_other o
  end.

(** How one iteration of the loop of lines 61-79 ends: [continue] after a
    warning, [Xp.append(invL)], or an exception. *)
Inductive step :=
  | Skip (w : string)
  | Append (invL : invdict)
  | Abort (e : exn).

Definition step_of (r : result invdict) : step :=
  match r with
  | Ok invL => Append invL
  | Raise e => Abort e
  end.

(** The body of the loop, lines 62-79, for the element [x] at index [i]. *)
Definition parse_element (i : nat) (x : pyobj) : step :=
  let is_iter := isinstance_Iterable x in
  let x := if is_iter then py_list x else x in
  if is_iter && bool_decide (len x ∈ [0; 2; 3]) then
    if bool_decide (len x = 0) then
      Skip (empty_warning i)
    else
      step_of (bind (getitem x 1) inv_dict)
  else if type_is_Graph x then
    step_of (bind (call_get_labels x "any") inv_dict)
  else
    Abort (ValueError malformed_msg).

(** The loop of lines 61-79 from index [i] on, over the remaining elements
    [X], with the list [Xp] built and the warnings [ws] emitted so far. *)
Fixpoint parse_loop (i : nat) (X : list pyobj) (Xp : list invdict)
    (ws : list string) : list string * result (list invdict) :=
  match X with
  | [] => (ws, Ok Xp)
  | x :: X' =>
      match parse_element i x with
      | Skip w => parse_loop (S i) X' Xp (ws ++ [w])
      | Append invL => parse_loop (S i) X' (Xp ++ [invL]) ws
      | Abort e => (ws, Raise e)
      end
  end.

(** [subtree_wl.parse_input], lines 57-82: the warnings emitted, and the
    list returned or the exception raised. *)
Definition parse_input (X : pyobj) : list string * result (list invdict) :=
  match iterate X with
  | None => ([], Raise (ValueError not_iterable_msg))
  | Some xs =>
      let '(ws, r) := parse_loop 0 xs [] [] in
      (ws, bind r (λ Xp,
             if bool_decide (length Xp = 0) then Raise (ValueError empty_msg)
             else Ok Xp))
  end.

(** *** Shapes of elements *)

(** An [Iterable] of length 0. *)
Definition empty_element (x : pyobj) : Prop := iterate x = Some [].

(** An [Iterable] whose length is 0, 2 or 3. *)
Definition short_iterable (x : pyobj) : Prop :=
  ∃ xs, iterate x = Some xs ∧ length xs ∈ [0; 2; 3].

(** An instance of exactly [Graph]. *)
Definition graph_object (x : pyobj) : Prop := ∃ g, x = PyGraph g.

(** Neither a short iterable nor a graph object. *)
Definition malformed (x : pyobj) : Prop :=
  ¬ short_iterable x ∧ ¬ graph_object x.


(** The summary the parser is to build for an accepted element: the
    inversion of the labels of a graph object, or of the node-label dict of
    a raw tuple. *)
Definition summary_of (x : pyobj) : invdict :=
  match x with
  | PyGraph g => inv_dict_map (get_labels g "any")
  | _ =>
      match iterate x with
      | Some (_ :: PyDict d :: _) => inv_dict_map d
      | _ => ∅
      end
  end.

End parser.

(** ** The worked examples of the specification *)

(** The summaries [{'x':[0,1], 'y':[2]}] and [{'x':[0], 'z':[1]}]. *)
Definition ex_xy : gmap string (list Z) := {[ "x" := [0; 1]; "y" := [2] ]}%Z.
Definition ex_xz : gmap string (list Z) := {[ "x" := [0]; "z" := [1] ]}%Z.

(** Summaries with the keys and bucket sizes of [ex_xy] and [ex_xz] but other
    node identifiers. *)
Definition ex_xy' : gmap string (list Z) := {[ "x" := [7; 5]; "y" := [9] ]}%Z.
Definition ex_xz' : gmap string (list Z) := {[ "x" := [3]; "z" := [4] ]}%Z.

(** An instance of the parameter of [inv_dict]: an [AttributeError] on every
    argument that is not a node-label mapping. *)
Definition inv_dict_raises (o : pyobj (label:=string) (node:=Z)) :
  result (gmap string (list Z)) := Raise (ForeignError "AttributeError").

(** The node-label dict [{0:'a'}]. *)
Definition labels_0a : gmap Z string := {[ 0%Z := "a" ]}.

(** A graph structure [g1] (an adjacency matrix or edge dictionary, which the
    parser does not look into), and a graph object with labels [{0:'a'}]. *)
Definition g1 : pyobj (label:=string) (node:=Z) := PyList [PyList [PyOther]].
Definition graph_0a : graph (label:=string) (node:=Z) :=
  {| get_labels := λ _, labels_0a |}.

(** ** What the parser keeps and what it skips *)

Section parser_outline.
Context `{Countable label} `{Countable node}.
Variable inv_dict_other :
  pyobj (label:=label) (node:=node) → result (gmap label (list node)).

(** The indices, counted from [i], of the elements of [X] that are iterables
    of length 0. *)
Fixpoint empty_indices (i : nat) (X : list (pyobj (label:=label) (node:=node)))
    : list nat :=
  match X with
  | [] => []
  | x :: X' =>
      match iterate x with
      | Some [] => i :: empty_indices (S i) X'
      | _ => empty_indices (S i) X'
      end
  end.

(** No element of [X], at the indices from [i] on, makes the loop body
    raise. *)
Definition no_abort (i : nat) (X : list (pyobj (label:=label) (node:=node)))
    : Prop :=
  ∀ j x e, X !! j = Some x → parse_element inv_dict_other (i + j) x ≠ Abort e.

(** The summary that the loop body appends for [x], if it appends one. *)
Definition appended (x : pyobj) : option (gmap label (list node)) :=
  match parse_element inv_dict_other 0 x with
  | Append invL => Some invL
  | _ => None
  end.
End parser_outline.

(** ** From node-label mappings to the score *)

(** The number of pairs of a node of [d1] and a node of [d2] that carry the
    same label: the docstring's [Σ_{v ∈ V1} Σ_{u ∈ V2} δ(l(v), l(u))] on the
    node-label mappings themselves. *)
Definition label_pair_count `{Countable label} `{Countable node}
    (d1 d2 : gmap node label) : Z :=
  sumZ (λ p, sumZ (λ q, if decide (p.2 = q.2) then 1 else 0)%Z
                  (map_to_list d2))
       (map_to_list d1).

(** ** The dataset check of the test module (grakel/tests/test_kernels.py) *)

(** What the check can end with: a [TypeError] the module raises itself, with
    its message; the interpreter's [TypeError] for subscripting [None]; a
    [KeyError] for a missing key. *)
Inductive script_exn :=
  | TypeError (msg : string)
  | NoneNotSubscriptable
  | KeyError (key : string).

Inductive outcome (A : Type) :=
  | Done (a : A)
  | Fails (e : script_exn).
Arguments Done {A} a.
Arguments Fails {A} e.

(** [d[k]], for [d] the value of [get_dataset_info(...)]: [None], or a dict
    from the names of the features of a dataset to booleans. *)
Definition info_item (d : option (gmap string bool)) (k : string)
    : outcome bool :=
  match d with
  | None => Fails NoneNotSubscriptable
  | Some m =>
      match m !! k with
      | Some b => Done b
      | None => Fails (KeyError k)
      end
  end.

(** [not d["nl"] and not d["el"]] (lines 126 and 133); [and] does not
    evaluate its second operand when the first is false. *)
Definition lacks_labels (d : option (gmap string bool)) : outcome bool :=
  match info_item d "nl" with
  | Fails e => Fails e
  | Done true => Done false
  | Done false =>
      match info_item d "el" with
      | Fails e => Fails e
      | Done b => Done (negb b)
      end
  end.

(** Lines 124-127, the check of the dataset with labels. *)
Definition check_dataset (dinfo : option (gmap string bool)) : outcome unit :=
  match dinfo with
  | None => Fails (TypeError "dataset not found")
  | Some _ =>
      match lacks_labels dinfo with
      | Fails e => Fails e
      | Done true =>
          Fails (TypeError "dataset must have either node and edge labels")
      | Done false => Done tt
      end
  end.

(** Lines 131-134, the check of the dataset with attributes; line 131 tests
    [dinfo]. *)
Definition check_dataset_attr (dinfo dinfo_attr : option (gmap string bool))
    : outcome unit :=
  match dinfo with
  | None => Fails (TypeError "dataset for attributes not found")
  | Some _ =>
      match lacks_labels dinfo_attr with
      | Fails e => Fails e
      | Done true => Fails (TypeError "dataset must have node attributes")
      | Done false => Done tt
      end
  end.

(** Lines 123-134: both checks, on the values [dinfo] and [dinfo_attr] of
    the two calls of [get_dataset_info] (lines 123 and 130). *)
Definition check_datasets (dinfo dinfo_attr : option (gmap string bool))
    : outcome unit :=
  match check_dataset dinfo with
  | Fails e => Fails e
  | Done _ => check_dataset_attr dinfo dinfo_attr
  end.

(** ** Facts about sums *)

Section sums.
Context {A : Type}.
Implicit Types (f g : A → Z) (l k : list A).

Lemma foldl_add_sumZ f l (acc : Z) :
  foldl Z.add acc (f <$> l) = (acc + sumZ f l)%Z.
Proof.
  revert acc. induction l as [|x l IH]; intros acc; simpl.
  - lia.
  - rewrite IH. unfold sumZ. simpl. lia.
Qed.

Lemma py_sum_sumZ f l : py_sum (f <$> l) = sumZ f l.
Proof. unfold py_sum. rewrite foldl_add_sumZ. lia. Qed.

Lemma sumZ_cons f x l : sumZ f (x :: l) = (f x + sumZ f l)%Z.
Proof. reflexivity. Qed.

Lemma sumZ_app f l k : sumZ f (l ++ k) = (sumZ f l + sumZ f k)%Z.
Proof.
  induction l as [|x l IH]; [done|].
  rewrite <-app_comm_cons, !sumZ_cons, IH. lia.
Qed.

Lemma sumZ_perm f l k : l ≡ₚ k → sumZ f l = sumZ f k.
Proof.
  induction 1 as [|x l k _ IH|x y l|l1 l2 l3 _ IH1 _ IH2];
    rewrite ?sumZ_cons; lia.
Qed.

Lemma sumZ_ext f g l : (∀ x, x ∈ l → f x = g x) → sumZ f l = sumZ g l.
Proof.
  induction l as [|x l IH]; intros Hfg; [done|].
  rewrite !sumZ_cons, (Hfg x), IH; [done| |left].
  intros y Hy. apply Hfg. by right.
Qed.

Lemma sumZ_nonneg f l : (∀ x, x ∈ l → (0 ≤ f x)%Z) → (0 ≤ sumZ f l)%Z.
Proof.
  induction l as [|x l IH]; intros Hf; [done|].
  rewrite sumZ_cons.
  assert (0 ≤ f x)%Z by (apply Hf; left).
  assert (0 ≤ sumZ f l)%Z by (apply IH; intros y Hy; apply Hf; by right).
  lia.
Qed.

Lemma sumZ_const (c : Z) l : sumZ (λ _, c) l = (Z.of_nat (length l) * c)%Z.
Proof.
  induction l as [|x l IH]; [done|].
  rewrite sumZ_cons, IH. simpl length. lia.
Qed.

Lemma sumZ_zero f l : (∀ x, x ∈ l → f x = 0%Z) → sumZ f l = 0%Z.
Proof.
  intros Hf. rewrite (sumZ_ext f (λ _, 0%Z)) by done.
  rewrite sumZ_const. lia.
Qed.

Lemma sumZ_fmap {B} (h : B → A) f (l : list B) :
  sumZ f (h <$> l) = sumZ (f ∘ h) l.
Proof.
  induction l as [|x l IH]; [done|].
  by rewrite fmap_cons, !sumZ_cons, IH.
Qed.

Lemma sumZ_scale (c : Z) f l : sumZ (λ x, c * f x)%Z l = (c * sumZ f l)%Z.
Proof.
  induction l as [|x l IH]; [simpl; lia|]. rewrite !sumZ_cons, IH. lia.
Qed.

Lemma sumZ_add f g l : sumZ (λ x, f x + g x)%Z l = (sumZ f l + sumZ g l)%Z.
Proof.
  induction l as [|x l IH]; [done|]. rewrite !sumZ_cons, IH. lia.
Qed.

(** Dropping items that contribute [0] does not change a sum. *)
Lemma sumZ_filter (P : A → Prop) `{!∀ x, Decision (P x)} f l :
  (∀ x, x ∈ l → ¬ P x → f x = 0%Z) → sumZ f (filter P l) = sumZ f l.
Proof.
  induction l as [|x l IH]; intros Hf; [done|].
  assert (sumZ f (filter P l) = sumZ f l) as IH'.
  { apply IH. intros y Hy. apply Hf. by right. }
  destruct (decide (P x)) as [HP|HP].
  - rewrite filter_cons_True by done. by rewrite !sumZ_cons, IH'.
  - rewrite filter_cons_False by done.
    rewrite sumZ_cons, IH', (Hf x); [lia|left|done].
Qed.
End sums.

Lemma sumZ_exchange {A B} (f : A → B → Z) (l : list A) (k : list B) :
  sumZ (λ x, sumZ (f x) k) l = sumZ (λ y, sumZ (λ x, f x y) l) k.
Proof.
  induction l as [|x l IH].
  - simpl. symmetry. by apply sumZ_zero.
  - rewrite sumZ_cons, IH, <-sumZ_add. by apply sumZ_ext.
Qed.

(** ** Facts about the kernel value *)

Section kernel_facts.
Context `{Countable label} `{Countable node}.
Implicit Types (a b ls lb : gmap label (list node)).

Lemma elem_of_dict_keys a x : x ∈ dict_keys a ↔ is_Some (a !! x).
Proof.
  unfold dict_keys. rewrite list_elem_of_fmap. split.
  - intros [[k vs] [-> Hin]]. apply elem_of_map_to_list in Hin. by exists vs.
  - intros [vs Hvs]. exists (x, vs). split; [done|].
    by apply elem_of_map_to_list.
Qed.

Lemma NoDup_dict_keys a : NoDup (dict_keys a).
Proof. apply NoDup_fst_map_to_list. Qed.

Lemma dict_keys_elements a : dict_keys a ≡ₚ elements (dom a).
Proof.
  apply NoDup_Permutation; [apply NoDup_dict_keys|apply NoDup_elements|].
  intros x. by rewrite elem_of_dict_keys, elem_of_elements, elem_of_dom.
Qed.

(** The keys the generator of line 102 visits are the shared labels. *)
Lemma shared_keys_perm ls lb :
  filter (λ x, is_Some (lb !! x)) (dict_keys ls)
  ≡ₚ elements (dom ls ∩ dom lb).
Proof.
  apply NoDup_Permutation.
  - apply NoDup_filter, NoDup_dict_keys.
  - apply NoDup_elements.
  - intros x.
    rewrite list_elem_of_filter, elem_of_dict_keys, elem_of_elements,
      elem_of_intersection, !elem_of_dom.
    tauto.
Qed.

(** Neither subscript of line 102 can raise [KeyError]. *)
Lemma shared_keys_guarded ls lb x :
  x ∈ filter (λ x, is_Some (lb !! x)) (dict_keys ls) →
  is_Some (ls !! x) ∧ is_Some (lb !! x).
Proof. rewrite list_elem_of_filter, elem_of_dict_keys. tauto. Qed.

Lemma sum_shared_spec ls lb : sum_shared ls lb = spec_score ls lb.
Proof.
  unfold sum_shared, spec_score.
  rewrite py_sum_sumZ. apply sumZ_perm, shared_keys_perm.
Qed.

Lemma spec_score_comm a b : spec_score a b = spec_score b a.
Proof.
  unfold spec_score.
  rewrite (sumZ_perm _ (elements (dom a ∩ dom b)) (elements (dom b ∩ dom a))).
  - apply sumZ_ext. intros x _. lia.
  - apply elements_proper. intros x. rewrite !elem_of_intersection. tauto.
Qed.

Lemma pairwise_operation_spec_score a b :
  pairwise_operation a b = spec_score a b.
Proof.
  unfold pairwise_operation. case_bool_decide.
  - apply sum_shared_spec.
  - rewrite sum_shared_spec. apply spec_score_comm.
Qed.

Lemma bucket_len_nonneg a x : (0 ≤ bucket_len a x)%Z.
Proof. unfold bucket_len. lia. Qed.

Lemma bucket_len_absent a x : a !! x = None → bucket_len a x = 0%Z.
Proof.
  intros Hx. unfold bucket_len. by rewrite lookup_total_alt, Hx.
Qed.

Lemma bucket_len_present a x vs :
  a !! x = Some vs → bucket_len a x = Z.of_nat (length vs).
Proof.
  intros Hx. unfold bucket_len. by rewrite lookup_total_alt, Hx.
Qed.

(** *** The node-pair count of the docstring *)

Lemma label_in_bucket (es : list (label * list node)) k vs v :
  v ∈ vs → label_in ((k, vs) :: es) v = Some k.
Proof. intros Hv. simpl. by rewrite decide_True. Qed.

Lemma label_in_skip (es : list (label * list node)) k vs v :
  v ∉ vs → label_in ((k, vs) :: es) v = label_in es v.
Proof. intros Hv. simpl. by rewrite decide_False. Qed.

(** Summing a function of the label over the nodes, bucket by bucket. *)
Lemma sumZ_nodes_label (g : option label → Z) (es : list (label * list node)) :
  NoDup (mjoin es.*2) →
  sumZ (λ v, g (label_in es v)) (mjoin es.*2)
  = sumZ (λ kv, Z.of_nat (length kv.2) * g (Some kv.1))%Z es.
Proof.
  induction es as [|[k vs] es IH]; [done|].
  change (mjoin (((k, vs) :: es).*2)) with (vs ++ mjoin es.*2).
  intros (_ & Hdisj & Hes)%NoDup_app.
  rewrite sumZ_app, sumZ_cons. simpl fst; simpl snd. f_equal.
  - rewrite <-sumZ_const. apply sumZ_ext.
    intros v Hv. by rewrite label_in_bucket.
  - rewrite <-IH by done. apply sumZ_ext.
    intros v Hv. rewrite label_in_skip; [done|].
    intros Hvs. by apply (Hdisj v).
Qed.

(** Of the buckets of [b], only the one under [k] matches the label [k]. *)
Lemma sumZ_delta_bucket b k :
  sumZ (λ kv, Z.of_nat (length kv.2) * delta (Some k) (Some kv.1))%Z
       (map_to_list b)
  = bucket_len b k.
Proof.
  induction b as [|i x m Hi IH] using map_ind.
  - by rewrite map_to_list_empty, bucket_len_absent.
  - rewrite (sumZ_perm _ _ _ (map_to_list_insert m i x Hi)), sumZ_cons, IH.
    simpl fst; simpl snd. unfold delta.
    destruct (decide (k = i)) as [->|Hne].
    + rewrite decide_True by done.
      rewrite (bucket_len_absent m i Hi).
      rewrite (bucket_len_present _ i x) by apply lookup_insert_eq. lia.
    + rewrite decide_False by congruence.
      unfold bucket_len. rewrite lookup_total_insert_ne by done. lia.
Qed.

Lemma sumZ_entries_spec_score a b :
  sumZ (λ kv, Z.of_nat (length kv.2) * bucket_len b kv.1)%Z (map_to_list a)
  = spec_score a b.
Proof.
  rewrite <-sum_shared_spec. unfold sum_shared.
  rewrite py_sum_sumZ, sumZ_filter.
  - unfold dict_keys. rewrite sumZ_fmap. apply sumZ_ext.
    intros [k vs] Hin%elem_of_map_to_list. simpl.
    by rewrite (bucket_len_present a k vs).
  - intros x _ Hx. rewrite (bucket_len_absent b x); [lia|].
    by destruct (b !! x); [destruct Hx|].
Qed.

Lemma node_pair_count_spec_score a b :
  NoDup (nodes a) → NoDup (nodes b) → node_pair_count a b = spec_score a b.
Proof.
  intros Ha Hb. unfold node_pair_count, nodes, label_of in *.
  rewrite (sumZ_nodes_label
             (λ o, sumZ (λ u, delta o (label_in (map_to_list b) u))
                        (mjoin (map_to_list b).*2))) by done.
  rewrite <-sumZ_entries_spec_score. apply sumZ_ext.
  intros [k vs] _. simpl. f_equal.
  rewrite (sumZ_nodes_label (delta (Some k))) by done.
  apply sumZ_delta_bucket.
Qed.

(** *** The Gram matrix in exact arithmetic *)

(** The shared labels may be summed over any larger set of labels. *)
Lemma spec_score_over (D : gset label) a b :
  dom a ∩ dom b ⊆ D →
  spec_score a b = sumZ (λ x, bucket_len a x * bucket_len b x)%Z (elements D).
Proof.
  intros HD. unfold spec_score.
  rewrite <-(sumZ_filter (λ x, x ∈ dom a ∩ dom b) _ (elements D)).
  - apply sumZ_perm, NoDup_Permutation.
    + apply NoDup_elements.
    + apply NoDup_filter, NoDup_elements.
    + intros x. rewrite list_elem_of_filter, !elem_of_elements.
      split; [|tauto]. intros Hx. split; [done|]. by apply HD.
  - intros x _ Hx. rewrite elem_of_intersection, !elem_of_dom in Hx.
    destruct (a !! x) as [vs|] eqn:Hax.
    + destruct (b !! x) as [us|] eqn:Hbx; [destruct Hx; eauto|].
      rewrite (bucket_len_absent b x) by done. lia.
    + rewrite (bucket_len_absent a x) by done. lia.
Qed.

(** The matrix of the scores of a collection of summaries is positive
    semi-definite: its quadratic form, at integer coefficients [cs.*1], is a
    sum of squares. *)
Lemma gram_quadratic_form_nonneg (cs : list (Z * gmap label (list node))) :
  (0 ≤ sumZ (λ p, sumZ (λ q, p.1 * q.1 * pairwise_operation p.2 q.2) cs) cs)%Z.
Proof.
  set (D := ⋃ (dom <$> cs.*2) : gset label).
  set (u := λ (p : Z * gmap label (list node)) x, (p.1 * bucket_len p.2 x)%Z).
  assert (∀ p, p ∈ cs → dom p.2 ⊆ D) as HD.
  { intros p Hp x Hx. apply elem_of_union_list. exists (dom p.2).
    split; [|done]. by do 2 apply list_elem_of_fmap_2. }
  assert (sumZ (λ p, sumZ (λ q, p.1 * q.1 * pairwise_operation p.2 q.2)%Z cs)
               cs
          = sumZ (λ x, sumZ (λ p, u p x) cs * sumZ (λ q, u q x) cs)%Z
                 (elements D)) as ->.
  { trans (sumZ (λ p, sumZ (λ x, u p x * sumZ (λ q, u q x) cs)%Z (elements D))
                cs).
    - apply sumZ_ext. intros p Hp.
      rewrite (sumZ_ext _ (λ q, sumZ (λ x, u p x * u q x)%Z (elements D))).
      + rewrite sumZ_exchange. apply sumZ_ext. intros x _.
        by rewrite sumZ_scale.
      + intros q Hq.
        rewrite pairwise_operation_spec_score, (spec_score_over D).
        * rewrite <-sumZ_scale. apply sumZ_ext. intros x _. unfold u. lia.
        * intros x [Hx _]%elem_of_intersection. by apply (HD p).
    - rewrite sumZ_exchange. apply sumZ_ext. intros x _.
      rewrite <-sumZ_scale. apply sumZ_ext. intros p _. lia. }
  apply sumZ_nonneg. intros x _. nia.
Qed.

(** *** Bucket sizes *)

Lemma bucket_len_fmap a a' x :
  length <$> a = length <$> a' → bucket_len a x = bucket_len a' x.
Proof.
  intros Heq. unfold bucket_len. rewrite !lookup_total_alt.
  assert (length <$> a !! x = length <$> a' !! x) as Hx
    by (by rewrite <-!lookup_fmap, Heq).
  destruct (a !! x), (a' !! x); simplify_eq/=; by f_equal.
Qed.

(** Equal [length <$> _] means: the same keys, with buckets of the same
    length under each key. *)
Lemma same_sizes_iff a a' :
  length <$> a = length <$> a'
  ↔ dom a = dom a' ∧ ∀ x, length (a !!! x) = length (a' !!! x).
Proof.
  split.
  - intros Heq. split.
    + by rewrite <-(dom_fmap_L length a), Heq, dom_fmap_L.
    + intros x. apply (inj Z.of_nat). by apply bucket_len_fmap.
  - intros [Hdom Hlen]. apply map_eq. intros x. rewrite !lookup_fmap.
    specialize (Hlen x). rewrite !lookup_total_alt in Hlen.
    assert (is_Some (a !! x) ↔ is_Some (a' !! x)) as Hx
      by (by rewrite <-!elem_of_dom, Hdom).
    destruct (a !! x) as [vs|], (a' !! x) as [vs'|]; simpl in *;
      [by f_equal|..|done].
    + by destruct (proj1 Hx).
    + by destruct (proj2 Hx).
Qed.
End kernel_facts.

(** ** Facts about the input parser *)

Section parser_facts.
Context `{Countable label} `{Countable node}.
Variable inv_dict_other :
  pyobj (label:=label) (node:=node) → result (gmap label (list node)).

Abbreviation pyobj' := (pyobj (label:=label) (node:=node)).
Abbreviation parse_element' := (parse_element inv_dict_other).
Abbreviation parse_loop' := (parse_loop inv_dict_other).
Abbreviation parse_input' := (parse_input inv_dict_other).
Implicit Types (x y : pyobj') (X pre post : list pyobj').

(** *** One iteration *)

Lemma empty_element_cases x : empty_element x ∨ ¬ empty_element x.
Proof.
  unfold empty_element. destruct (iterate x) as [[|??]|]; auto.
Qed.

Lemma parse_element_empty i x :
  empty_element x → parse_element' i x = Skip (empty_warning i).
Proof.
  unfold empty_element, parse_element, isinstance_Iterable, py_list.
  intros ->. done.
Qed.

Lemma parse_element_malformed i x :
  malformed x → parse_element' i x = Abort (ValueError malformed_msg).
Proof.
  intros [Hshort Hgraph].
  unfold parse_element, isinstance_Iterable, py_list.
  destruct (iterate x) as [xs|] eqn:Hit; simpl.
  - rewrite bool_decide_eq_false_2; [done|].
    intros Hlen. apply Hshort. by exists xs.
  - destruct x as [| | |?|g|g it]; simpl in *; try done.
    destruct Hgraph. by exists g.
Qed.

Lemma parse_element_graph i g :
  parse_element' i (PyGraph g)
  = Append (inv_dict_map (get_labels g "any")).
Proof. done. Qed.


Lemma graph_object_cases x : graph_object x ∨ ¬ graph_object x.
Proof.
  destruct x as [| | | |g|]; [right..|left|right];
    try (by intros [??]). by exists g.
Qed.


(** Only the warning of an empty element depends on the index. *)
Lemma parse_element_index i j x :
  ¬ empty_element x → parse_element' i x = parse_element' j x.
Proof.
  unfold empty_element, parse_element, isinstance_Iterable, py_list.
  intros Hne. destruct (iterate x) as [[|??]|]; done.
Qed.

Lemma parse_element_skip i x w :
  parse_element' i x = Skip w → empty_element x.
Proof.
  unfold empty_element, parse_element, isinstance_Iterable, py_list.
  destruct (iterate x) as [xs|] eqn:Hit; simpl.
  - case_bool_decide; simpl.
    + case_bool_decide as Hlen; [|by destruct (bind _ _)].
      intros _. by destruct xs.
    + done.
  - destruct (type_is_Graph x); [by destruct (bind _ _)|done].
Qed.

(** *** The loop *)

(** The result of the loop, warnings apart, does not depend on the index it
    starts from nor on the warnings emitted before. *)
Lemma parse_loop_result_index i j X Xp ws ws' :
  (parse_loop' i X Xp ws).2 = (parse_loop' j X Xp ws').2.
Proof.
  revert i j Xp ws ws'. induction X as [|x X IH]; intros i j Xp ws ws'; [done|].
  simpl. destruct (empty_element_cases x) as [Hx|Hx].
  - rewrite !parse_element_empty by done. apply IH.
  - rewrite (parse_element_index i j) by done.
    destruct (parse_element' j x); [apply IH..|done].
Qed.

(** The warnings already emitted stay, in order, at the front. *)
Lemma parse_loop_warnings i X Xp ws :
  ws `prefix_of` (parse_loop' i X Xp ws).1.
Proof.
  revert i Xp ws. induction X as [|x X IH]; intros i Xp ws; [done|].
  simpl. destruct (parse_element' i x); [|apply IH|done].
  etrans; [|apply IH]. by apply prefix_app_r.
Qed.

(** A prefix of elements none of which raises is consumed entirely. *)
Lemma parse_loop_no_abort i pre X Xp ws :
  (∀ j y e, pre !! j = Some y → parse_element' (i + j) y ≠ Abort e) →
  ∃ Xp' ws',
    parse_loop' i (pre ++ X) Xp ws
    = parse_loop' (i + length pre) X (Xp ++ Xp') (ws ++ ws').
Proof.
  revert i Xp ws. induction pre as [|y pre IH]; intros i Xp ws Hpre.
  - exists [], []. by rewrite !app_nil_r, Nat.add_0_r.
  - assert (∀ j y e, pre !! j = Some y → parse_element' (S i + j) y ≠ Abort e)
      as Hpre'.
    { intros j z e Hj. replace (S i + j) with (i + S j) by lia.
      by apply Hpre. }
    simpl. rewrite <-Nat.add_succ_comm.
    destruct (parse_element' i y) as [w|invL|e] eqn:Hy.
    + destruct (IH (S i) Xp (ws ++ [w]) Hpre') as (Xp' & ws' & ->).
      exists Xp', (w :: ws'). by rewrite <-(assoc_L (++) ws).
    + destruct (IH (S i) (Xp ++ [invL]) ws Hpre') as (Xp' & ws' & ->).
      exists (invL :: Xp'), ws'. by rewrite <-(assoc_L (++) Xp).
    + destruct (Hpre 0 y e); [done|]. by rewrite Nat.add_0_r.
Qed.

(** Removing an empty element does not change the result of the loop. *)
Lemma parse_loop_drop_empty i pre x post Xp ws :
  empty_element x →
  (parse_loop' i (pre ++ x :: post) Xp ws).2
  = (parse_loop' i (pre ++ post) Xp ws).2.
Proof.
  intros Hx. revert i Xp ws.
  induction pre as [|y pre IH]; intros i Xp ws; simpl.
  - rewrite parse_element_empty by done. apply parse_loop_result_index.
  - destruct (parse_element' i y); [apply IH..|done].
Qed.

(** When every element is empty, the loop ends with an empty [Xp] and one
    warning per element. *)
Lemma parse_loop_all_empty i X ws :
  Forall empty_element X →
  parse_loop' i X [] ws
  = (ws ++ imap (λ j _, empty_warning (i + j)) X, Ok []).
Proof.
  intros HX. revert i ws.
  induction HX as [|x X Hx _ IH]; intros i ws; simpl.
  - by rewrite app_nil_r.
  - rewrite parse_element_empty, IH, <-(assoc_L (++)) by done. simpl.
    rewrite Nat.add_0_r. do 3 f_equal.
    apply imap_ext. intros j y _. simpl. f_equal. lia.
Qed.


(** A malformed element ends the loop with the [ValueError] of lines
    75-78, unless an earlier element ended it with another exception. *)
Lemma parse_loop_malformed i pre x post Xp ws :
  malformed x →
  (∀ j y e, pre !! j = Some y → parse_element' (i + j) y = Abort e →
            e = ValueError malformed_msg) →
  (parse_loop' i (pre ++ x :: post) Xp ws).2
  = Raise (ValueError malformed_msg).
Proof.
  intros Hx. revert i Xp ws.
  induction pre as [|y pre IH]; intros i Xp ws Hpre; simpl.
  - by rewrite parse_element_malformed.
  - assert (∀ j y e, pre !! j = Some y →
              parse_element' (S i + j) y = Abort e →
              e = ValueError malformed_msg) as Hpre'.
    { intros j z e Hj. replace (S i + j) with (i + S j) by lia.
      by apply Hpre. }
    destruct (parse_element' i y) as [w|invL|e] eqn:Hy; [by apply IH..|].
    simpl. f_equal. apply (Hpre 0 y); [done|]. by rewrite Nat.add_0_r.
Qed.

(** An empty element that the loop reaches adds its warning. *)
Lemma parse_loop_empty_warns i pre x post Xp ws :
  empty_element x →
  (∀ j y e, pre !! j = Some y → parse_element' (i + j) y ≠ Abort e) →
  empty_warning (i + length pre)
  ∈ (parse_loop' i (pre ++ x :: post) Xp ws).1.
Proof.
  intros Hx Hpre.
  destruct (parse_loop_no_abort i pre (x :: post) Xp ws Hpre)
    as (Xp' & ws' & ->).
  simpl. rewrite parse_element_empty by done.
  eapply elem_of_prefix; [|apply parse_loop_warnings].
  rewrite !elem_of_app, list_elem_of_singleton. auto.
Qed.

(** *** The whole call *)

(** Any iterable input is parsed as the list of what it yields. *)
Lemma parse_input_iterate (Xo : pyobj') X :
  iterate Xo = Some X → parse_input' Xo = parse_input' (PyList X).
Proof. unfold parse_input. by intros ->. Qed.

Lemma parse_input_not_iterable (Xo : pyobj') :
  iterate Xo = None →
  parse_input' Xo = ([], Raise (ValueError not_iterable_msg)).
Proof. unfold parse_input. by intros ->. Qed.

Lemma parse_input_result X :
  (parse_input' (PyList X)).2
  = bind (parse_loop' 0 X [] []).2
      (λ Xp, if bool_decide (length Xp = 0) then Raise (ValueError empty_msg)
             else Ok Xp).
Proof. unfold parse_input. simpl. by destruct (parse_loop _ _ _ _ _). Qed.

Lemma parse_input_warnings X :
  (parse_input' (PyList X)).1 = (parse_loop' 0 X [] []).1.
Proof. unfold parse_input. simpl. by destruct (parse_loop _ _ _ _ _). Qed.

(** An empty [Xp] after the loop is the [ValueError] of line 81. *)
Lemma parse_input_empty_Xp X ws :
  parse_loop' 0 X [] [] = (ws, Ok []) →
  parse_input' (PyList X) = (ws, Raise (ValueError empty_msg)).
Proof. unfold parse_input. simpl. by intros ->. Qed.
End parser_facts.

(** ** Facts about the inversion of a node-label mapping *)

Section inv_dict_facts.
Context `{Countable label} `{Countable node}.
Implicit Types (d : gmap node label) (m : gmap label (list node)).

Lemma inv_dict_map_empty : inv_dict_map (∅ : gmap node label) = ∅.
Proof. unfold inv_dict_map. apply map_fold_empty. Qed.

Lemma inv_dict_map_insert d n l :
  d !! n = None → map_first_key (<[n:=l]> d) n →
  inv_dict_map (<[n:=l]> d)
  = <[l := inv_dict_map d !!! l ++ [n]]> (inv_dict_map d).
Proof.
  intros Hn Hfirst. unfold inv_dict_map.
  by rewrite map_fold_insert_first_key.
Qed.

(** The bucket of [l] lists exactly the nodes labelled [l]. *)
Lemma elem_of_inv_dict_map d l n :
  n ∈ inv_dict_map d !!! l ↔ d !! n = Some l.
Proof.
  induction d as [|i x d Hi Hfirst IH] using map_first_key_ind.
  - rewrite inv_dict_map_empty, lookup_total_empty, lookup_empty.
    split; [by intros ?%elem_of_nil|done].
  - rewrite inv_dict_map_insert by done.
    destruct (decide (l = x)) as [->|Hl].
    + rewrite lookup_total_insert_eq, elem_of_app, list_elem_of_singleton, IH.
      destruct (decide (n = i)) as [->|Hn].
      * rewrite lookup_insert_eq. intuition congruence.
      * rewrite lookup_insert_ne by done. intuition congruence.
    + rewrite lookup_total_insert_ne, IH by done.
      destruct (decide (n = i)) as [->|Hn].
      * rewrite lookup_insert_eq, Hi. intuition congruence.
      * by rewrite lookup_insert_ne.
Qed.

(** Every key is a label that some node carries. *)
Lemma inv_dict_map_bucket_nonempty d l vs :
  inv_dict_map d !! l = Some vs → vs ≠ [].
Proof.
  revert l vs.
  induction d as [|i x d Hi Hfirst IH] using map_first_key_ind; intros l vs.
  - by rewrite inv_dict_map_empty, lookup_empty.
  - rewrite inv_dict_map_insert by done.
    destruct (decide (l = x)) as [->|Hl].
    + rewrite lookup_insert_eq. intros [= <-]. by intros [? ?]%app_eq_nil.
    + rewrite lookup_insert_ne by done. apply IH.
Qed.

(** No bucket lists a node twice. *)
Lemma inv_dict_map_bucket_NoDup d l : NoDup (inv_dict_map d !!! l).
Proof.
  revert l.
  induction d as [|i x d Hi Hfirst IH] using map_first_key_ind; intros l.
  - rewrite inv_dict_map_empty, lookup_total_empty. constructor.
  - rewrite inv_dict_map_insert by done.
    destruct (decide (l = x)) as [->|Hl].
    + rewrite lookup_total_insert_eq. apply NoDup_app. split; [apply IH|].
      split; [|apply NoDup_singleton].
      intros n Hn ->%list_elem_of_singleton.
      apply elem_of_inv_dict_map in Hn. congruence.
    + rewrite lookup_total_insert_ne by done. apply IH.
Qed.

(** Buckets that are duplicate-free and pairwise disjoint concatenate to a
    duplicate-free list of nodes. *)
Lemma NoDup_join_entries (es : list (label * list node)) :
  NoDup es.*1 →
  (∀ k vs, (k, vs) ∈ es → NoDup vs) →
  (∀ k1 vs1 k2 vs2 n,
     (k1, vs1) ∈ es → (k2, vs2) ∈ es → n ∈ vs1 → n ∈ vs2 → k1 = k2) →
  NoDup (mjoin es.*2).
Proof.
  induction es as [|[k vs] es IH]; intros Hkeys Hbucket Hdisj.
  - constructor.
  - change (mjoin (((k, vs) :: es).*2)) with (vs ++ mjoin es.*2).
    rewrite fmap_cons in Hkeys. apply NoDup_cons in Hkeys as [Hk Hkeys].
    apply NoDup_app. split; [|split].
    + apply (Hbucket k). left.
    + intros n Hn (vs' & Hn' & Hvs')%list_elem_of_join.
      apply list_elem_of_fmap in Hvs' as ([k' vs''] & Heq & Hin).
      simpl in Heq. subst vs''. apply Hk. apply list_elem_of_fmap. exists (k', vs'). split; [|done].
      simpl. apply (Hdisj k vs k' vs' n); [left|by right|done|done].
    + apply IH; [done|..].
      * intros k' vs' Hin. apply (Hbucket k'). by right.
      * intros k1 vs1 k2 vs2 n H1 H2. apply Hdisj; by right.
Qed.

Lemma well_formed_empty : well_formed (∅ : gmap label (list node)).
Proof.
  split; [by intros k vs; rewrite lookup_empty|].
  unfold nodes. rewrite map_to_list_empty. constructor.
Qed.

(** The summaries the parser builds are well formed. *)
Lemma inv_dict_map_well_formed d : well_formed (inv_dict_map d).
Proof.
  split; [apply inv_dict_map_bucket_nonempty|].
  unfold nodes. apply NoDup_join_entries.
  - apply NoDup_fst_map_to_list.
  - intros k vs Hin%elem_of_map_to_list.
    rewrite <-(lookup_total_correct _ _ _ Hin).
    apply inv_dict_map_bucket_NoDup.
  - intros k1 vs1 k2 vs2 n Hin1%elem_of_map_to_list Hin2%elem_of_map_to_list.
    rewrite <-(lookup_total_correct _ _ _ Hin1),
      <-(lookup_total_correct _ _ _ Hin2), !elem_of_inv_dict_map.
    congruence.
Qed.

Lemma summary_of_well_formed (x : pyobj (label:=label) (node:=node)) :
  well_formed (summary_of x).
Proof.
  unfold summary_of.
  destruct x as [| | | |g|]; try apply inv_dict_map_well_formed;
    repeat case_match;
    auto using inv_dict_map_well_formed, well_formed_empty.
Qed.
End inv_dict_facts.

(** ** Facts about the texts *)

(** The warning tells the index: different indices give different texts. *)
Lemma empty_warning_inj : Inj (=) (=) empty_warning.
Proof.
  intros i j Heq. unfold empty_warning in Heq.
  do 2 apply (inj (String.app _)) in Heq. by apply (inj pretty).
Qed.

Lemma prefix_refl (p : string) : String.prefix p p = true.
Proof.
  apply String.prefix_correct.
  induction p as [|c p IH]; [done|]. simpl. by rewrite IH.
Qed.

Lemma index_refl (p : string) : is_Some (String.index 0 p p).
Proof.
  destruct p as [|c p]; [by eexists|].
  cbn [String.index]. rewrite (prefix_refl (String c p)). by eexists.
Qed.

Lemma index_app_l (pre p s : string) :
  is_Some (String.index 0 p s) → is_Some (String.index 0 p (pre +:+ s)).
Proof.
  intros Hs. induction pre as [|c pre IH]; [done|].
  change (String c pre +:+ s) with (String c (pre +:+ s)).
  cbn [String.index].
  destruct (String.prefix _ _); [by eexists|].
  destruct IH as [n ->]. by eexists.
Qed.

Lemma pretty_N_go_digit (x : N) (s : string) :
  (0 < x)%N ∨ starts_with_digit s → starts_with_digit (pretty_N_go x s).
Proof.
  revert s. induction (N.lt_wf_0 x) as [x _ IH]; intros s Hs.
  assert (x = 0 ∨ 0 < x)%N as [->|Hx] by lia.
  - rewrite pretty_N_go_0. by destruct Hs as [?|?]; [lia|].
  - rewrite pretty_N_go_step by done. apply IH; [by apply N.div_lt|].
    right. by eexists _, _.
Qed.

(** The numeral of an index starts with a digit. *)
Lemma pretty_nat_digit (i : nat) : starts_with_digit (pretty i).
Proof.
  unfold pretty, pretty_nat, pretty, pretty_N. case_decide as Hi.
  - by exists 0%N, EmptyString.
  - apply pretty_N_go_digit. lia.
Qed.

(** The first character of a substring occurs in the string. *)
Lemma substring_head_occurs (n m : nat) (s : string) c p :
  String.substring n (S m) s = String c p → occurs c s = true.
Proof.
  revert n. induction s as [|b s IH]; intros n Hsub.
  - by destruct n.
  - destruct n as [|n]; simpl in *.
    + simplify_eq. by rewrite bool_decide_eq_true_2.
    + rewrite (IH n Hsub). by rewrite orb_true_r.
Qed.

(** A text without digits cites no index. *)
Lemma no_digit_cites_no_index (msg : string) (i : nat) :
  (∀ x, occurs (pretty_N_char x) msg = false) → cites_index msg i = false.
Proof.
  intros Hmsg. unfold cites_index. apply bool_decide_eq_false. intros [n Hn].
  destruct (pretty_nat_digit i) as (x & p & Hp). rewrite Hp in Hn.
  apply String.index_correct1, substring_head_occurs in Hn.
  by rewrite Hmsg in Hn.
Qed.

(** The message for a malformed element cites no index at all. *)
Lemma malformed_msg_cites_no_index i : cites_index malformed_msg i = false.
Proof.
  apply no_digit_cites_no_index. intros x.
  unfold pretty_N_char. by repeat case_match; vm_compute.
Qed.

(** The warning cites the index: its text ends with the numeral. *)
Lemma empty_warning_cites_index i : cites_index (empty_warning i) i = true.
Proof.
  unfold cites_index, empty_warning. apply bool_decide_eq_true.
  do 2 apply index_app_l. apply index_refl.
Qed.

(** ** The kernel value: specification-level statements *)

(** C1. For well-formed inverted-label dictionaries, [pairwise_operation]
    returns the sum over the labels present in both dictionaries of the
    product of the two bucket sizes, which is the docstring's double sum
    counting the pairs of nodes, one of each graph, with equal labels.  For
    [{'x':[0,1], 'y':[2]}] and [{'x':[0], 'z':[1]}] the score is 2. *)
Theorem pairwise_operation_correct :
  (∀ (label node : Type) `{Countable label} `{Countable node}
     (a b : gmap label (list node)),
     well_formed a → well_formed b →
     pairwise_operation a b = spec_score a b
     ∧ pairwise_operation a b = node_pair_count a b)
  ∧ pairwise_operation ex_xy ex_xz = 2%Z.
Proof.
  split; [|by vm_compute].
  intros label node ???? a b [_ Ha] [_ Hb].
  rewrite node_pair_count_spec_score by done.
  split; apply pairwise_operation_spec_score.
Qed.

Lemma pairwise_operation_correct_witness :
  well_formed ex_xy ∧ well_formed ex_xz
  ∧ pairwise_operation ex_xy ex_xz = spec_score ex_xy ex_xz
  ∧ pairwise_operation ex_xy ex_xz = node_pair_count ex_xy ex_xz.
Proof.
  assert (well_formed ex_xy) as Ha by (by apply (bool_decide_unpack _)).
  assert (well_formed ex_xz) as Hb by (by apply (bool_decide_unpack _)).
  split; [exact Ha|]. split; [exact Hb|].
  exact (proj1 pairwise_operation_correct _ _ _ _ _ _ ex_xy ex_xz Ha Hb).
Defined.

(** C2. [pairwise_operation] is commutative, and the sum of line 102 is the
    same whichever of the two dictionaries is the one iterated over: the
    choice of the smaller one does not affect the value. *)
Theorem pairwise_operation_comm `{Countable label} `{Countable node}
    (a b : gmap label (list node)) :
  pairwise_operation a b = pairwise_operation b a
  ∧ sum_shared a b = sum_shared b a.
Proof.
  rewrite !pairwise_operation_spec_score, !sum_shared_spec.
  split; apply spec_score_comm.
Qed.

(** A sum of natural numbers, taken in [Z]. *)
Lemma sumZ_of_nat {A} (g : A → nat) (l : list A) :
  sumZ (λ x, Z.of_nat (g x)) l = Z.of_nat (sum_list_with g l).
Proof.
  induction l as [|x l IH]; [done|].
  rewrite sumZ_cons, IH. simpl. lia.
Qed.

(** C6. The score of a summary with itself is non-negative, and it is the sum
    over its labels of the squared bucket size, [Σ_label |a[label]|^2]; for
    [{'x':[0,1], 'y':[2]}] it is [2^2 + 1^2 = 5]. *)
Theorem pairwise_operation_self :
  (∀ (label node : Type) `{Countable label} `{Countable node}
     (a : gmap label (list node)),
     (0 ≤ pairwise_operation a a)%Z
     ∧ pairwise_operation a a
       = Z.of_nat (sum_list_with (λ x, length (a !!! x) ^ 2)
                     (elements (dom a))))
  ∧ pairwise_operation ex_xy ex_xy = 5%Z.
Proof.
  split; [|by vm_compute].
  intros label node ???? a.
  assert (pairwise_operation a a
          = Z.of_nat (sum_list_with (λ x, length (a !!! x) ^ 2)
                        (elements (dom a)))) as ->; [|split; [lia|done]].
  rewrite pairwise_operation_spec_score, <-sumZ_of_nat. unfold spec_score.
  rewrite (sumZ_perm _ (elements (dom a ∩ dom a)) (elements (dom a))).
  - apply sumZ_ext. intros x _. unfold bucket_len.
    rewrite Nat2Z.inj_pow. lia.
  - apply elements_proper. intros x. rewrite elem_of_intersection. tauto.
Qed.

(** C10. The score depends only on the keys and the bucket sizes of the two
    summaries, not on the node identifiers in the buckets: summaries with the
    same keys and, under each key, buckets of the same length, have the same
    score. *)
Theorem pairwise_operation_sizes_only `{Countable label} `{Countable node}
    (a a' b b' : gmap label (list node)) :
  dom a = dom a' → (∀ x, length (a !!! x) = length (a' !!! x)) →
  dom b = dom b' → (∀ x, length (b !!! x) = length (b' !!! x)) →
  pairwise_operation a b = pairwise_operation a' b'.
Proof.
  intros Hda Hla Hdb Hlb.
  rewrite !pairwise_operation_spec_score. unfold spec_score, bucket_len.
  rewrite Hda, Hdb. apply sumZ_ext. intros x _. by rewrite Hla, Hlb.
Qed.

Lemma pairwise_operation_sizes_only_witness :
  (dom ex_xy = dom ex_xy'
   ∧ ∀ x, length (ex_xy !!! x) = length (ex_xy' !!! x))
  ∧ (dom ex_xz = dom ex_xz'
     ∧ ∀ x, length (ex_xz !!! x) = length (ex_xz' !!! x))
  ∧ pairwise_operation ex_xy ex_xz = pairwise_operation ex_xy' ex_xz'.
Proof.
  assert (length <$> ex_xy = length <$> ex_xy') as Ha by (by vm_compute).
  assert (length <$> ex_xz = length <$> ex_xz') as Hb by (by vm_compute).
  apply same_sizes_iff in Ha as [Hda Hla].
  apply same_sizes_iff in Hb as [Hdb Hlb].
  split; [by split|]. split; [by split|].
  exact (pairwise_operation_sizes_only ex_xy ex_xy' ex_xz ex_xz'
           Hda Hla Hdb Hlb).
Defined.

(** ** The input parser: specification-level statements *)

(** The summary of a graph labelled [{0:'a'}] is [{'a':[0]}]. *)
Example inv_dict_map_0a : inv_dict_map labels_0a = {[ "a" := [0%Z] ]}.
Proof. by vm_compute. Qed.

(** The text of the [ValueError] for a malformed element does not cite the
    index: parsing [[ {0:'a'} ]] raises it, and [0] does not occur in it. *)
Example parse_input_dict_element :
  malformed (PyDict labels_0a)
  ∧ parse_input inv_dict_raises (PyList [PyDict labels_0a])
    = ([], Raise (ValueError malformed_msg))
  ∧ cites_index malformed_msg 0 = false.
Proof.
  split; [|by vm_compute]. split.
  - intros (xs & Hit & Hlen). vm_compute in Hit. simplify_eq.
    exact (bool_decide_unpack (1 ∉ [0; 2; 3]) I Hlen).
  - by intros [g ?].
Qed.

(** With an [inv_dict] that raises on what is not a mapping, a malformed
    element after such a tuple is never reached. *)
Example parse_input_foreign_error_first :
  malformed (PyOther : pyobj (label:=string) (node:=Z))
  ∧ parse_input inv_dict_raises (PyList [PyList [g1; PyOther]; PyOther])
    = ([], Raise (ForeignError "AttributeError")).
Proof.
  split; [|by vm_compute]. split.
  - by intros (xs & Hit & _).
  - by intros [g ?].
Qed.

(** The statement that every malformed element is answered by a [ValueError]
    whose message cites the index of that element does not hold. *)
Lemma malformed_error_cites_index_fails :
  ¬ (∀ (X : list (pyobj (label:=string) (node:=Z))) i x,
       X !! i = Some x → malformed x →
       ∃ msg, (parse_input inv_dict_raises (PyList X)).2
              = Raise (ValueError msg)
              ∧ cites_index msg i = true).
Proof.
  intros Hall.
  destruct parse_input_dict_element as (Hbad & Hrun & Hmsg).
  destruct (Hall [PyDict labels_0a] 0 (PyDict labels_0a) eq_refl Hbad)
    as (msg & Hraise & Hcite).
  rewrite Hrun in Hraise. simpl in Hraise. simplify_eq.
Qed.

(** C3, as the code has it.  When an input sequence contains a malformed
    element (neither an iterable of length 0, 2 or 3 nor an instance of
    exactly [Graph]) and no earlier element ends the call with another
    exception, [parse_input] raises the [ValueError] of lines 75-78, whose
    message is one fixed text that cites no index.  Parsing [[ {0:'a'} ]]
    raises it. *)
Theorem parse_input_malformed :
  (∀ (label node : Type) `{Countable label} `{Countable node}
     (inv_dict_other : pyobj → result (gmap label (list node)))
     (X : pyobj) (pre post : list pyobj) (x : pyobj),
     iterate X = Some (pre ++ x :: post) →
     malformed x →
     (∀ j y e, pre !! j = Some y →
               parse_element inv_dict_other j y = Abort e →
               e = ValueError malformed_msg) →
     (parse_input inv_dict_other X).2 = Raise (ValueError malformed_msg))
  ∧ (∀ i, cites_index malformed_msg i = false)
  ∧ parse_input inv_dict_raises (PyList [PyDict labels_0a])
    = ([], Raise (ValueError malformed_msg)).
Proof.
  split; [|split; [apply malformed_msg_cites_no_index|by vm_compute]].
  intros label node ???? oth X pre post x HX Hx Hpre.
  rewrite (parse_input_iterate oth X _ HX).
  by rewrite parse_input_result, parse_loop_malformed.
Qed.

Lemma parse_input_malformed_witness :
  malformed (PyDict labels_0a)
  ∧ (parse_input inv_dict_raises
       (PyList ([PyList []; PyGraph graph_0a] ++ PyDict labels_0a :: [PyOther]))).2
    = Raise (ValueError malformed_msg).
Proof.
  assert (malformed (PyDict labels_0a)) as Hx
    by exact (proj1 parse_input_dict_element).
  split; [exact Hx|].
  apply (proj1 parse_input_malformed _ _ _ _ _ _ inv_dict_raises (PyList _)
           [PyList []; PyGraph graph_0a] [PyOther] (PyDict labels_0a));
    [reflexivity|exact Hx|].
  intros [|[|j]] y e Hy; simplify_eq/=; by vm_compute.
Defined.

(** C4. An element that is an iterable of length 0 is skipped with a warning
    that names its index; it adds nothing to the output and no error is
    raised for it: the call ends as it does without the element.  Parsing
    [[(), (g1, {0:'a'}), ()]] returns one summary, with two warnings. *)
Theorem parse_input_skips_empty :
  (∀ (label node : Type) `{Countable label} `{Countable node}
     (inv_dict_other : pyobj → result (gmap label (list node)))
     (X X' : pyobj) (pre post : list pyobj) (x : pyobj),
     iterate X = Some (pre ++ x :: post) →
     iterate X' = Some (pre ++ post) →
     empty_element x →
     parse_element inv_dict_other (length pre) x
     = Skip (empty_warning (length pre))
     ∧ (parse_input inv_dict_other X).2 = (parse_input inv_dict_other X').2
     ∧ ((∀ j y e, pre !! j = Some y →
                  parse_element inv_dict_other j y ≠ Abort e) →
        empty_warning (length pre) ∈ (parse_input inv_dict_other X).1))
  ∧ (∀ i, cites_index (empty_warning i) i = true)
  ∧ Inj (=) (=) empty_warning
  ∧ parse_input inv_dict_raises
      (PyList [PyList []; PyList [g1; PyDict labels_0a]; PyList []])
    = (["Ignoring empty element on index: 0";
        "Ignoring empty element on index: 2"],
       Ok [inv_dict_map labels_0a]).
Proof.
  split; [|split; [apply empty_warning_cites_index|]];
    [|split; [apply empty_warning_inj|by vm_compute]].
  intros label node ???? oth X X' pre post x HX HX' Hx.
  rewrite (parse_input_iterate oth X _ HX), (parse_input_iterate oth X' _ HX').
  split; [|split].
  - by apply parse_element_empty.
  - by rewrite !parse_input_result, parse_loop_drop_empty.
  - intros Hpre. rewrite parse_input_warnings.
    by apply (parse_loop_empty_warns oth 0).
Qed.

Lemma parse_input_skips_empty_witness :
  empty_element (PyList [] : pyobj (label:=string) (node:=Z))
  ∧ (parse_input inv_dict_raises
       (PyList ([PyGraph graph_0a] ++ PyList [] :: [PyList [g1; PyDict labels_0a]]))).2
    = (parse_input inv_dict_raises
         (PyList ([PyGraph graph_0a] ++ [PyList [g1; PyDict labels_0a]]))).2.
Proof.
  assert (empty_element (PyList [] : pyobj (label:=string) (node:=Z))) as Hx
    by reflexivity.
  split; [exact Hx|].
  exact (proj1 (proj2 (proj1 parse_input_skips_empty _ _ _ _ _ _
                         inv_dict_raises (PyList _) (PyList _)
                         [PyGraph graph_0a]
                         [PyList [g1; PyDict labels_0a]] (PyList [])
                         eq_refl eq_refl Hx))).
Defined.

(** C5. When the list built by the loop is empty, because the input was empty
    or every element was skipped, [parse_input] raises the [ValueError]
    "parsed input is empty" for the whole call.  Parsing [[(), ()]] raises
    it. *)
Theorem parse_input_empty :
  (∀ (label node : Type) `{Countable label} `{Countable node}
     (inv_dict_other : pyobj → result (gmap label (list node)))
     (X : pyobj) (xs : list pyobj),
     iterate X = Some xs →
     (∀ ws, parse_loop inv_dict_other 0 xs [] [] = (ws, Ok []) →
            parse_input inv_dict_other X = (ws, Raise (ValueError empty_msg)))
     ∧ (Forall empty_element xs →
        parse_input inv_dict_other X
        = (imap (λ j _, empty_warning j) xs, Raise (ValueError empty_msg))))
  ∧ parse_input inv_dict_raises (PyList [PyList []; PyList []])
    = (["Ignoring empty element on index: 0";
        "Ignoring empty element on index: 1"],
       Raise (ValueError "parsed input is empty")).
Proof.
  split; [|by vm_compute].
  intros label node ???? oth X xs HX.
  rewrite (parse_input_iterate oth X _ HX). split.
  - apply parse_input_empty_Xp.
  - intros Hxs. apply parse_input_empty_Xp.
    by rewrite (parse_loop_all_empty oth 0 xs []).
Qed.

Lemma parse_input_empty_witness :
  Forall empty_element ([] : list (pyobj (label:=string) (node:=Z)))
  ∧ parse_input inv_dict_raises (PyList [])
    = ([], Raise (ValueError empty_msg)).
Proof.
  assert (Forall empty_element ([] : list (pyobj (label:=string) (node:=Z))))
    as HX by constructor.
  split; [exact HX|].
  exact (proj2 (proj1 parse_input_empty _ _ _ _ _ _ inv_dict_raises
                  (PyList []) [] eq_refl) HX).
Defined.



(** C9. An element that is not an iterable of length 0, 2 or 3 is accepted
    only when its type is exactly [Graph]; otherwise it is rejected with the
    malformed-input [ValueError].  So is an instance of a proper subclass of
    [Graph], whose label-lookup capability is not used. *)
Theorem parse_input_exact_graph_only :
  (∀ (label node : Type) `{Countable label} `{Countable node}
     (inv_dict_other : pyobj → result (gmap label (list node)))
     (i : nat) (x : pyobj),
     ¬ short_iterable x →
     (∀ invL, parse_element inv_dict_other i x = Append invL → graph_object x)
     ∧ (¬ graph_object x →
        parse_element inv_dict_other i x = Abort (ValueError malformed_msg))
     ∧ (∀ g it, x = PyGraphSub g it →
        parse_element inv_dict_other i x = Abort (ValueError malformed_msg)))
  ∧ parse_input inv_dict_raises (PyList [PyGraphSub graph_0a None])
    = ([], Raise (ValueError malformed_msg)).
Proof.
  split; [|by vm_compute].
  intros label node ???? oth i x Hshort.
  assert (¬ graph_object x →
          parse_element oth i x = Abort (ValueError malformed_msg)) as Hrej.
  { intros Hg. by apply parse_element_malformed. }
  split; [|split; [done|]].
  - intros invL Hacc. destruct (graph_object_cases x) as [|Hg]; [done|].
    rewrite Hrej in Hacc; done.
  - intros g it ->. apply Hrej. by intros [??].
Qed.

Lemma parse_input_exact_graph_only_witness :
  ¬ short_iterable (PyGraphSub graph_0a None)
  ∧ parse_element inv_dict_raises 0 (PyGraphSub graph_0a None)
    = Abort (ValueError malformed_msg).
Proof.
  assert (¬ short_iterable (PyGraphSub graph_0a None)) as Hshort
    by (by intros (xs & Hit & _)).
  split; [exact Hshort|].
  exact (proj2 (proj2 (proj1 parse_input_exact_graph_only _ _ _ _ _ _
                         inv_dict_raises 0 _ Hshort)) graph_0a None eq_refl).
Defined.

(** ** Further facts about sums *)

Section sums_order.
Context {A : Type}.
Implicit Types (f g : A → Z) (l : list A).

Lemma sumZ_le f g l :
  (∀ x, x ∈ l → (f x ≤ g x)%Z) → (sumZ f l ≤ sumZ g l)%Z.
Proof.
  induction l as [|x l IH]; intros Hfg; [done|].
  rewrite !sumZ_cons.
  assert (f x ≤ g x)%Z by (apply Hfg; left).
  assert (sumZ f l ≤ sumZ g l)%Z by (apply IH; intros y Hy; apply Hfg; by right).
  lia.
Qed.

(** A sum of non-negative terms is zero only if every term is. *)
Lemma sumZ_eq_0 f l :
  (∀ x, x ∈ l → (0 ≤ f x)%Z) → sumZ f l = 0%Z → ∀ x, x ∈ l → f x = 0%Z.
Proof.
  induction l as [|y l IH]; intros Hf Hsum x Hx; [by apply elem_of_nil in Hx|].
  rewrite sumZ_cons in Hsum.
  assert (0 ≤ f y)%Z by (apply Hf; left).
  assert (0 ≤ sumZ f l)%Z
    by (apply sumZ_nonneg; intros z Hz; apply Hf; by right).
  apply elem_of_cons in Hx as [->|Hx]; [lia|].
  apply IH; [|lia|done]. intros z Hz. apply Hf. by right.
Qed.

(** For non-negative terms, the sum of the products is at most the product
    of the sums. *)
Lemma sumZ_mul_le f g l :
  (∀ x, (0 ≤ f x)%Z) → (∀ x, (0 ≤ g x)%Z) →
  (sumZ (λ x, f x * g x) l ≤ sumZ f l * sumZ g l)%Z.
Proof.
  intros Hf Hg. induction l as [|x l IH]; [done|].
  rewrite !sumZ_cons.
  assert (0 ≤ sumZ f l)%Z by (by apply sumZ_nonneg).
  assert (0 ≤ sumZ g l)%Z by (by apply sumZ_nonneg).
  specialize (Hf x). specialize (Hg x). nia.
Qed.

(** A sum that is non-zero at one item only, over a list without
    duplicates. *)
Lemma sumZ_indicator `{EqDecision A} g l y :
  NoDup l → y ∈ l →
  sumZ (λ x, if decide (x = y) then g x else 0%Z) l = g y.
Proof.
  induction 1 as [|x l Hx Hl IH]; intros Hy; [by apply elem_of_nil in Hy|].
  rewrite sumZ_cons. destruct (decide (x = y)) as [->|Hne].
  - rewrite sumZ_zero; [lia|].
    intros z Hz. rewrite decide_False; [done|]. by intros ->.
  - apply elem_of_cons in Hy as [->|Hy]; [done|]. rewrite IH by done. lia.
Qed.
End sums_order.

(** ** Further facts about the kernel value *)

Section kernel_bounds.
Context `{Countable label} `{Countable node}.
Implicit Types (a b : gmap label (list node)) (D : gset label).

(** A sum over a set of labels may be taken over any larger set on whose
    additional labels the terms vanish. *)
Lemma sumZ_elements_subseteq (f : label → Z) D1 D2 :
  D1 ⊆ D2 → (∀ x, x ∈ D2 → x ∉ D1 → f x = 0%Z) →
  sumZ f (elements D2) = sumZ f (elements D1).
Proof.
  intros Hsub Hzero.
  rewrite <-(sumZ_filter (λ x, x ∈ D1) f (elements D2)).
  - apply sumZ_perm, NoDup_Permutation.
    + apply NoDup_filter, NoDup_elements.
    + apply NoDup_elements.
    + intros x. rewrite list_elem_of_filter, !elem_of_elements.
      split; [tauto|]. intros Hx. split; [done|]. by apply Hsub.
  - intros x Hx%elem_of_elements Hx1. by apply Hzero.
Qed.

Lemma bucket_len_not_dom a x : x ∉ dom a → bucket_len a x = 0%Z.
Proof. intros Hx%not_elem_of_dom. by apply bucket_len_absent. Qed.

Lemma length_join_entries (es : list (label * list node)) :
  Z.of_nat (length (mjoin es.*2))
  = sumZ (λ kv, Z.of_nat (length kv.2)) es.
Proof.
  induction es as [|[k vs] es IH]; [done|].
  change (mjoin (((k, vs) :: es).*2)) with (vs ++ mjoin es.*2).
  rewrite length_app, sumZ_cons, <-IH. simpl. lia.
Qed.

(** The number of nodes of a summary is the sum of its bucket sizes. *)
Lemma length_nodes a :
  Z.of_nat (length (nodes a)) = sumZ (bucket_len a) (dict_keys a).
Proof.
  unfold nodes, dict_keys. rewrite length_join_entries, sumZ_fmap.
  apply sumZ_ext. intros [k vs] Hin%elem_of_map_to_list. simpl.
  by rewrite (bucket_len_present a k vs).
Qed.

Lemma length_nodes_over a D :
  dom a ⊆ D → sumZ (bucket_len a) (elements D) = Z.of_nat (length (nodes a)).
Proof.
  intros HD. rewrite length_nodes, (sumZ_perm _ _ _ (dict_keys_elements a)).
  apply sumZ_elements_subseteq; [done|].
  intros x _. apply bucket_len_not_dom.
Qed.

(** The score as a sum over the labels of both summaries. *)
Lemma pairwise_operation_over a b D :
  dom a ∪ dom b ⊆ D →
  pairwise_operation a b
  = sumZ (λ x, bucket_len a x * bucket_len b x)%Z (elements D).
Proof.
  intros HD. rewrite pairwise_operation_spec_score. apply spec_score_over.
  intros x [Hx _]%elem_of_intersection. apply HD, elem_of_union. by left.
Qed.

Lemma bucket_len_0_nil a x : bucket_len a x = 0%Z ↔ a !!! x = [].
Proof.
  unfold bucket_len. split.
  - intros Hlen. apply length_zero_iff_nil. lia.
  - by intros ->.
Qed.

Lemma pairwise_operation_nonneg a b : (0 ≤ pairwise_operation a b)%Z.
Proof.
  rewrite pairwise_operation_spec_score. apply sumZ_nonneg. intros x _.
  apply Z.mul_nonneg_nonneg; apply bucket_len_nonneg.
Qed.

Lemma pairwise_operation_sym a b :
  pairwise_operation a b = pairwise_operation b a.
Proof. rewrite !pairwise_operation_spec_score. apply spec_score_comm. Qed.

Lemma pairwise_operation_le_nodes a b :
  (pairwise_operation a b
   ≤ Z.of_nat (length (nodes a)) * Z.of_nat (length (nodes b)))%Z.
Proof.
  rewrite (pairwise_operation_over a b (dom a ∪ dom b)) by done.
  rewrite <-(length_nodes_over a (dom a ∪ dom b)),
    <-(length_nodes_over b (dom a ∪ dom b));
    [|intros x Hx; apply elem_of_union; auto..].
  apply sumZ_mul_le; intros x; apply bucket_len_nonneg.
Qed.
End kernel_bounds.

Section kernel_algebra.
Context `{Countable label} `{Countable node}.
Implicit Types (a b : gmap label (list node)) (D : gset label).

(** The quadratic form of two summaries, from the Gram matrix. *)
Lemma pair_quadratic_form a b (c1 c2 : Z) :
  (0 ≤ c1 * c1 * pairwise_operation a a
       + 2 * (c1 * c2 * pairwise_operation a b)
       + c2 * c2 * pairwise_operation b b)%Z.
Proof.
  pose proof (gram_quadratic_form_nonneg [(c1, a); (c2, b)]) as Hq.
  rewrite !sumZ_cons in Hq. simpl in Hq.
  rewrite (pairwise_operation_sym b a) in Hq. lia.
Qed.

Lemma pairwise_operation_cauchy_schwarz a b :
  (pairwise_operation a b * pairwise_operation a b
   ≤ pairwise_operation a a * pairwise_operation b b)%Z.
Proof.
  pose proof (pairwise_operation_nonneg a a) as Haa.
  pose proof (pairwise_operation_nonneg b b) as Hbb.
  pose proof (pairwise_operation_nonneg a b) as Hab.
  pose proof (pair_quadratic_form a b (pairwise_operation a b)
                (- pairwise_operation a a)) as H1.
  pose proof (pair_quadratic_form a b (- (pairwise_operation b b + 1))
                (pairwise_operation a b)) as H2.
  destruct (decide (pairwise_operation a a = 0)%Z) as [Hz|Hnz].
  - rewrite Hz in *. assert (pairwise_operation a b = 0)%Z as -> by nia. lia.
  - nia.
Qed.

Lemma bucket_len_union a1 a2 x :
  dom a1 ## dom a2 →
  bucket_len (a1 ∪ a2) x = (bucket_len a1 x + bucket_len a2 x)%Z.
Proof.
  intros Hdisj. unfold bucket_len. rewrite !lookup_total_alt, lookup_union.
  destruct (a1 !! x) as [vs1|] eqn:H1, (a2 !! x) as [vs2|] eqn:H2; simpl;
    try lia.
  destruct (Hdisj x); apply elem_of_dom; eauto.
Qed.

Lemma bucket_len_add_node a l v x :
  bucket_len (<[l := v :: a !!! l]> a) x
  = (bucket_len a x + if decide (x = l) then 1 else 0)%Z.
Proof.
  unfold bucket_len. destruct (decide (x = l)) as [->|Hne].
  - rewrite lookup_total_insert_eq. simpl. lia.
  - rewrite lookup_total_insert_ne by done. lia.
Qed.

(** The labels of a renamed summary, listed. *)
Lemma elements_set_map_inj `{Countable label'} (f : label → label')
    `{!Inj (=) (=) f} D :
  elements (set_map f D : gset label') ≡ₚ f <$> elements D.
Proof.
  apply NoDup_Permutation.
  - apply NoDup_elements.
  - apply (NoDup_fmap_2 f), NoDup_elements.
  - intros y. rewrite elem_of_elements, elem_of_map, list_elem_of_fmap.
    by setoid_rewrite elem_of_elements.
Qed.

Lemma bucket_len_kmap `{Countable label'} (f : label → label')
    `{!Inj (=) (=) f} a x :
  bucket_len (kmap f a : gmap label' (list node)) (f x) = bucket_len a x.
Proof. unfold bucket_len. by rewrite lookup_total_kmap. Qed.
End kernel_algebra.

(** ** Further properties of the kernel value *)

(** X1. The score is never negative, and it is zero exactly when no label
    has a non-empty bucket in both summaries; so summaries with disjoint
    label sets score 0. *)
Theorem pairwise_operation_zero_iff `{Countable label} `{Countable node}
    (a b : gmap label (list node)) :
  (0 ≤ pairwise_operation a b)%Z
  ∧ (pairwise_operation a b = 0%Z ↔ ∀ x, a !!! x = [] ∨ b !!! x = [])
  ∧ (dom a ## dom b → pairwise_operation a b = 0%Z).
Proof.
  assert (pairwise_operation a b = 0%Z ↔ ∀ x, a !!! x = [] ∨ b !!! x = [])
    as Hiff.
  { rewrite (pairwise_operation_over a b (dom a ∪ dom b)) by done. split.
    - intros Hsum x.
      destruct (decide (x ∈ dom a ∪ dom b)) as [Hx|Hx].
      + apply elem_of_elements in Hx.
        apply (sumZ_eq_0 _ _ (λ y _, Z.mul_nonneg_nonneg _ _
                 (bucket_len_nonneg a y) (bucket_len_nonneg b y)) Hsum) in Hx.
        apply Z.mul_eq_0 in Hx as [Hx|Hx]; apply bucket_len_0_nil in Hx; auto.
      + left. apply bucket_len_0_nil, bucket_len_not_dom.
        intros Ha. apply Hx, elem_of_union. by left.
    - intros Hall. apply sumZ_zero. intros x _.
      destruct (Hall x) as [Hx|Hx]; apply bucket_len_0_nil in Hx;
        rewrite Hx; lia. }
  split; [apply pairwise_operation_nonneg|]. split; [done|].
  intros Hdisj. apply Hiff. intros x.
  destruct (decide (x ∈ dom a)) as [Ha|Ha].
  - right. apply bucket_len_0_nil, bucket_len_not_dom.
    intros Hb. by apply (Hdisj x).
  - left. by apply bucket_len_0_nil, bucket_len_not_dom.
Qed.

(** X2. The score is at most the number of pairs of nodes, one of each
    summary. *)
Theorem pairwise_operation_node_bound `{Countable label} `{Countable node}
    (a b : gmap label (list node)) :
  (pairwise_operation a b
   ≤ Z.of_nat (length (nodes a)) * Z.of_nat (length (nodes b)))%Z.
Proof. apply pairwise_operation_le_nodes. Qed.

(** X3. The Cauchy-Schwarz inequality: the square of the score of two
    summaries is at most the product of their scores with themselves. *)
Theorem pairwise_operation_cs `{Countable label} `{Countable node}
    (a b : gmap label (list node)) :
  (pairwise_operation a b ^ 2
   ≤ pairwise_operation a a * pairwise_operation b b)%Z.
Proof.
  pose proof (pairwise_operation_cauchy_schwarz a b). lia.
Qed.

(** X4. The matrix of the scores of any collection of summaries is positive
    semi-definite in exact arithmetic: for integer coefficients [c_i], the
    sum of [c_i * c_j * score(X_i, X_j)] over all [i], [j] is not
    negative. *)
Theorem gram_matrix_psd `{Countable label} `{Countable node}
    (cs : list (Z * gmap label (list node))) :
  (0 ≤ sumZ (λ p, sumZ (λ q, p.1 * q.1 * pairwise_operation p.2 q.2) cs) cs)%Z.
Proof. apply gram_quadratic_form_nonneg. Qed.

(** X5. The score is additive in a summary: for two summaries with disjoint
    label sets, the score of their union with [b] is the sum of their scores
    with [b]. *)
Theorem pairwise_operation_union `{Countable label} `{Countable node}
    (a1 a2 b : gmap label (list node)) :
  dom a1 ## dom a2 →
  pairwise_operation (a1 ∪ a2) b
  = (pairwise_operation a1 b + pairwise_operation a2 b)%Z.
Proof.
  intros Hdisj. set (D := dom a1 ∪ dom a2 ∪ dom b).
  rewrite (pairwise_operation_over (a1 ∪ a2) b D),
    (pairwise_operation_over a1 b D), (pairwise_operation_over a2 b D);
    [|unfold D; intros x; rewrite ?dom_union_L, !elem_of_union; tauto..].
  rewrite <-sumZ_add. apply sumZ_ext. intros x _.
  rewrite bucket_len_union by done. lia.
Qed.

Lemma pairwise_operation_union_witness :
  dom ({[ "x" := [0; 1] ]}%Z : gmap string (list Z))
  ## dom ({[ "y" := [2] ]}%Z : gmap string (list Z))
  ∧ pairwise_operation ({[ "x" := [0; 1] ]}%Z ∪ {[ "y" := [2] ]}%Z) ex_xz
    = (pairwise_operation ({[ "x" := [0; 1] ]}%Z) ex_xz
       + pairwise_operation ({[ "y" := [2] ]}%Z) ex_xz)%Z.
Proof.
  assert (dom ({[ "x" := [0; 1] ]}%Z : gmap string (list Z))
          ## dom ({[ "y" := [2] ]}%Z : gmap string (list Z))) as Hdisj
    by (by apply (bool_decide_unpack _)).
  split; [exact Hdisj|].
  exact (pairwise_operation_union _ _ ex_xz Hdisj).
Defined.

(** X6. Adding a node [v] with label [l] to a summary raises its score with
    [b] by the number of nodes that [b] lists under [l]. *)
Theorem pairwise_operation_add_node `{Countable label} `{Countable node}
    (a b : gmap label (list node)) (l : label) (v : node) :
  pairwise_operation (<[l := v :: a !!! l]> a) b
  = (pairwise_operation a b + Z.of_nat (length (b !!! l)))%Z.
Proof.
  change (Z.of_nat (length (b !!! l))) with (bucket_len b l).
  set (D := {[l]} ∪ dom a ∪ dom b).
  rewrite (pairwise_operation_over _ b D), (pairwise_operation_over a b D);
    [|unfold D; intros x; rewrite ?dom_insert_L, !elem_of_union; tauto..].
  rewrite <-(sumZ_indicator (bucket_len b) (elements D) l);
    [|apply NoDup_elements|].
  2:{ apply elem_of_elements. unfold D.
      rewrite !elem_of_union, elem_of_singleton. tauto. }
  rewrite <-sumZ_add. apply sumZ_ext. intros x _.
  rewrite bucket_len_add_node. case_decide; lia.
Qed.

(** X7. The score of a summary with itself lies between its number of nodes
    and the square of that number, and it is zero exactly when the summary
    lists no node. *)
Theorem pairwise_operation_self_bounds `{Countable label} `{Countable node}
    (a : gmap label (list node)) :
  (Z.of_nat (length (nodes a)) ≤ pairwise_operation a a
   ≤ Z.of_nat (length (nodes a)) ^ 2)%Z
  ∧ (pairwise_operation a a = 0%Z ↔ nodes a = []).
Proof.
  assert (Z.of_nat (length (nodes a)) ≤ pairwise_operation a a)%Z as Hlow.
  { rewrite (pairwise_operation_over a a (dom a)),
      <-(length_nodes_over a (dom a));
      [|done|intros x; rewrite elem_of_union; tauto].
    apply sumZ_le. intros x _. pose proof (bucket_len_nonneg a x). nia. }
  pose proof (pairwise_operation_le_nodes a a) as Hup.
  split; [lia|]. split.
  - intros Hz. apply length_zero_iff_nil. lia.
  - intros Hnil. rewrite Hnil in Hlow, Hup. simpl in *. lia.
Qed.

(** X8. Labels matter by equality only: renaming the labels of both
    summaries by an injective function does not change the score. *)
Theorem pairwise_operation_relabel `{Countable label} `{Countable label'}
    `{Countable node} (f : label → label') `{!Inj (=) (=) f}
    (a b : gmap label (list node)) :
  pairwise_operation (kmap f a : gmap label' (list node)) (kmap f b)
  = pairwise_operation a b.
Proof.
  rewrite (pairwise_operation_over a b (dom a ∪ dom b)) by done.
  rewrite (pairwise_operation_over _ _ (set_map f (dom a ∪ dom b))).
  - rewrite (sumZ_perm _ _ _ (elements_set_map_inj f _)), sumZ_fmap.
    apply sumZ_ext. intros x _. simpl. by rewrite !bucket_len_kmap.
  - by rewrite !dom_kmap_L, set_map_union_L.
Qed.

Lemma pairwise_operation_relabel_witness :
  Inj (=) (=) (String.app "wl")
  ∧ pairwise_operation (kmap (String.app "wl") ex_xy : gmap string (list Z))
      (kmap (String.app "wl") ex_xz)
    = pairwise_operation ex_xy ex_xz.
Proof.
  assert (Inj (=) (=) (String.app "wl")) as Hinj by apply _.
  split; [exact Hinj|].
  exact (pairwise_operation_relabel (String.app "wl") ex_xy ex_xz).
Defined.

(** ** Further facts about the input parser *)

Section parser_runs.
Context `{Countable label} `{Countable node}.
Variable inv_dict_other :
  pyobj (label:=label) (node:=node) → result (gmap label (list node)).

Abbreviation elem := (pyobj (label:=label) (node:=node)).
Abbreviation parse_element1 := (parse_element inv_dict_other).
Abbreviation parse_loop1 := (parse_loop inv_dict_other).
Abbreviation parse_input1 := (parse_input inv_dict_other).
Abbreviation appended1 := (appended inv_dict_other).
Abbreviation no_abort := (no_abort inv_dict_other).
Implicit Types (x y : elem) (xs ys pre post : list elem).

Lemma no_abort_cons i x xs :
  no_abort i (x :: xs)
  ↔ (∀ e, parse_element1 i x ≠ Abort e) ∧ no_abort (S i) xs.
Proof.
  unfold no_abort. split.
  - intros Hall. split.
    + intros e. rewrite <-(Nat.add_0_r i). by apply (Hall 0).
    + intros j y e Hj. replace (S i + j) with (i + S j) by lia.
      by apply Hall.
  - intros [Hx Hxs] [|j] y e Hj; simplify_eq/=.
    + rewrite Nat.add_0_r. apply Hx.
    + replace (i + S j) with (S i + j) by lia. by apply Hxs.
Qed.

Lemma parse_element_skip_inv i x w :
  parse_element1 i x = Skip w → iterate x = Some [] ∧ w = empty_warning i.
Proof.
  intros Hskip. pose proof (parse_element_skip _ _ _ _ Hskip) as Hx.
  split; [done|]. rewrite (parse_element_empty _ i x Hx) in Hskip.
  by simplify_eq.
Qed.

Lemma parse_element_append_inv i x invL :
  parse_element1 i x = Append invL →
  iterate x ≠ Some [] ∧ appended1 x = Some invL.
Proof.
  intros Happ.
  assert (¬ empty_element x) as Hne.
  { intros Hx. by rewrite (parse_element_empty _ i x Hx) in Happ. }
  split; [done|]. unfold appended.
  by rewrite (parse_element_index _ 0 i x Hne), Happ.
Qed.

(** Over elements that do not raise, the loop appends the summaries and
    emits the warnings of the empty elements, both in input order. *)
Lemma parse_loop_app_run i pre rest Xp ws :
  no_abort i pre →
  parse_loop1 i (pre ++ rest) Xp ws
  = parse_loop1 (i + length pre) rest (Xp ++ omap appended1 pre)
      (ws ++ (empty_warning <$> empty_indices i pre)).
Proof.
  revert i Xp ws. induction pre as [|x pre IH]; intros i Xp ws Hpre.
  - simpl. by rewrite !app_nil_r, Nat.add_0_r.
  - apply no_abort_cons in Hpre as [Hx Hpre].
    simpl. rewrite <-Nat.add_succ_comm.
    destruct (parse_element1 i x) as [w|invL|e] eqn:Hstep.
    + apply parse_element_skip_inv in Hstep as Hinv.
      destruct Hinv as [Hit ->]. rewrite Hit, IH by done.
      unfold appended at 2. rewrite (parse_element_empty _ 0 x Hit).
      by rewrite fmap_cons, <-(assoc_L (++) ws).
    + apply parse_element_append_inv in Hstep as [Hit Happ].
      rewrite IH, Happ by done. rewrite <-(assoc_L (++) Xp). csimpl.
      by destruct (iterate x) as [[|??]|].
    + by destruct (Hx e).
Qed.

Lemma parse_loop_run i xs Xp ws :
  no_abort i xs →
  parse_loop1 i xs Xp ws
  = (ws ++ (empty_warning <$> empty_indices i xs),
     Ok (Xp ++ omap appended1 xs)).
Proof.
  intros Hxs. rewrite <-(app_nil_r xs) at 1.
  by rewrite parse_loop_app_run.
Qed.

(** A loop that ends normally met no element that raises. *)
Lemma parse_loop_ok_no_abort i xs Xp ws ws' Xp' :
  parse_loop1 i xs Xp ws = (ws', Ok Xp') → no_abort i xs.
Proof.
  revert i Xp ws. induction xs as [|x xs IH]; intros i Xp ws Hrun.
  - by intros j y e Hj.
  - simpl in Hrun. apply no_abort_cons.
    destruct (parse_element1 i x) as [w|invL|e]; [|..|done];
      (split; [done|by eapply IH]).
Qed.

(** Every element that does not raise is either appended or skipped. *)
Lemma appended_or_skipped i xs :
  no_abort i xs →
  length (omap appended1 xs) + length (empty_indices i xs) = length xs.
Proof.
  revert i. induction xs as [|x xs IH]; intros i Hxs; [done|].
  apply no_abort_cons in Hxs as [Hx Hxs]. specialize (IH (S i) Hxs).
  destruct (parse_element1 i x) as [w|invL|e] eqn:Hstep.
  - apply parse_element_skip_inv in Hstep as [Hit _].
    csimpl. unfold appended at 1. rewrite (parse_element_empty _ 0 x Hit), Hit.
    csimpl. lia.
  - apply parse_element_append_inv in Hstep as [Hit Happ].
    csimpl. rewrite Happ. simpl.
    destruct (iterate x) as [[|??]|]; [done|lia..].
  - by destruct (Hx e).
Qed.

(** Nothing is appended exactly when every element is empty. *)
Lemma omap_appended_nil i xs :
  no_abort i xs →
  omap appended1 xs = [] ↔ Forall empty_element xs.
Proof.
  revert i. induction xs as [|x xs IH]; intros i Hxs; [done|].
  apply no_abort_cons in Hxs as [Hx Hxs]. specialize (IH (S i) Hxs).
  rewrite Forall_cons.
  destruct (parse_element1 i x) as [w|invL|e] eqn:Hstep.
  - apply parse_element_skip_inv in Hstep as [Hit _].
    csimpl. unfold appended at 1. rewrite (parse_element_empty _ 0 x Hit).
    rewrite IH. unfold empty_element at 1. tauto.
  - apply parse_element_append_inv in Hstep as [Hit Happ].
    csimpl. rewrite Happ. split; [done|]. by intros [? _].
  - by destruct (Hx e).
Qed.

(** A call that returns: what its loop did. *)
Lemma parse_input_ok_inv (X : elem) xs ws Xp :
  iterate X = Some xs → parse_input1 X = (ws, Ok Xp) →
  no_abort 0 xs
  ∧ ws = empty_warning <$> empty_indices 0 xs
  ∧ Xp = omap appended1 xs
  ∧ Xp ≠ [].
Proof.
  intros HX. unfold parse_input. rewrite HX.
  destruct (parse_loop inv_dict_other 0 xs [] []) as [ws' [Xp'|e]] eqn:Hrun;
    simpl; [|done].
  pose proof (parse_loop_ok_no_abort _ _ _ _ _ _ Hrun) as Hxs.
  rewrite parse_loop_run in Hrun by done. simpl in Hrun. simplify_eq.
  case_bool_decide as Hlen; [done|]. intros [= <- <-].
  split; [done|]. split; [done|]. split; [done|].
  intros Hnil. by rewrite Hnil in Hlen.
Qed.
End parser_runs.

(** ** Further properties of the input parser *)

(** X9. A call that returns never returns an empty list, and every element
    of the input is accounted for once: the number of summaries returned plus
    the number of warnings emitted is the number of elements. *)
Theorem parse_input_accounts `{Countable label} `{Countable node}
    (inv_dict_other : pyobj → result (gmap label (list node)))
    (X : pyobj) (xs : list pyobj) (ws : list string)
    (Xp : list (gmap label (list node))) :
  iterate X = Some xs →
  parse_input inv_dict_other X = (ws, Ok Xp) →
  Xp ≠ [] ∧ length Xp + length ws = length xs.
Proof.
  intros HX Hrun.
  destruct (parse_input_ok_inv _ _ _ _ _ HX Hrun) as (Hxs & -> & -> & Hne).
  split; [done|]. rewrite length_fmap. by apply appended_or_skipped.
Qed.

Lemma parse_input_accounts_witness :
  iterate (PyList [PyList []; PyList [g1; PyDict labels_0a]; PyList []])
  = Some [PyList []; PyList [g1; PyDict labels_0a]; PyList []]
  ∧ parse_input inv_dict_raises
      (PyList [PyList []; PyList [g1; PyDict labels_0a]; PyList []])
    = ([empty_warning 0; empty_warning 2], Ok [inv_dict_map labels_0a])
  ∧ ([inv_dict_map labels_0a] ≠ []
     ∧ length [inv_dict_map labels_0a]
       + length [empty_warning 0; empty_warning 2] = 3).
Proof.
  assert (parse_input inv_dict_raises
            (PyList [PyList []; PyList [g1; PyDict labels_0a]; PyList []])
          = ([empty_warning 0; empty_warning 2], Ok [inv_dict_map labels_0a]))
    as Hrun by (by vm_compute).
  split; [reflexivity|]. split; [exact Hrun|].
  exact (parse_input_accounts inv_dict_raises (PyList _) _ _ _ eq_refl Hrun).
Defined.

(** X10. A call that returns gives, in input order, the summaries of the
    elements it did not skip, and has emitted, in increasing order of index,
    exactly the warnings of the elements that are iterables of length 0. *)
Theorem parse_input_keeps_order `{Countable label} `{Countable node}
    (inv_dict_other : pyobj → result (gmap label (list node)))
    (X : pyobj) (xs : list pyobj) (ws : list string)
    (Xp : list (gmap label (list node))) :
  iterate X = Some xs →
  parse_input inv_dict_other X = (ws, Ok Xp) →
  Xp = omap (appended inv_dict_other) xs
  ∧ ws = empty_warning <$> empty_indices 0 xs.
Proof.
  intros HX Hrun.
  by destruct (parse_input_ok_inv _ _ _ _ _ HX Hrun) as (_ & -> & -> & _).
Qed.

Lemma parse_input_keeps_order_witness :
  iterate (PyList [PyList []; PyGraph graph_0a; PyList [g1; PyDict labels_0a]])
  = Some [PyList []; PyGraph graph_0a; PyList [g1; PyDict labels_0a]]
  ∧ parse_input inv_dict_raises
      (PyList [PyList []; PyGraph graph_0a; PyList [g1; PyDict labels_0a]])
    = ([empty_warning 0],
       Ok [inv_dict_map (get_labels graph_0a "any"); inv_dict_map labels_0a])
  ∧ [inv_dict_map (get_labels graph_0a "any"); inv_dict_map labels_0a]
    = omap (appended inv_dict_raises)
        [PyList []; PyGraph graph_0a; PyList [g1; PyDict labels_0a]].
Proof.
  assert (parse_input inv_dict_raises
            (PyList [PyList []; PyGraph graph_0a;
                     PyList [g1; PyDict labels_0a]])
          = ([empty_warning 0],
             Ok [inv_dict_map (get_labels graph_0a "any");
                 inv_dict_map labels_0a]))
    as Hrun by (by vm_compute).
  split; [reflexivity|]. split; [exact Hrun|].
  exact (proj1 (parse_input_keeps_order inv_dict_raises (PyList _) _ _ _
                  eq_refl Hrun)).
Defined.

(** X11. [parse_input] returns a list exactly when its input is iterable, no
    element makes the loop body raise, and at least one element is not an
    iterable of length 0. *)
Theorem parse_input_returns_iff `{Countable label} `{Countable node}
    (inv_dict_other : pyobj → result (gmap label (list node))) (X : pyobj) :
  (∃ ws Xp, parse_input inv_dict_other X = (ws, Ok Xp))
  ↔ ∃ xs, iterate X = Some xs
          ∧ no_abort inv_dict_other 0 xs
          ∧ ¬ Forall empty_element xs.
Proof.
  split.
  - intros (ws & Xp & Hrun).
    destruct (iterate X) as [xs|] eqn:HX;
      [|by rewrite parse_input_not_iterable in Hrun].
    exists xs.
    destruct (parse_input_ok_inv _ _ _ _ _ HX Hrun) as (Hxs & _ & -> & Hne).
    split; [done|]. split; [done|].
    by rewrite <-(omap_appended_nil inv_dict_other 0).
  - intros (xs & HX & Hxs & Hne).
    rewrite <-(omap_appended_nil inv_dict_other 0) in Hne by done.
    unfold parse_input. rewrite HX, parse_loop_run by done. simpl.
    rewrite bool_decide_eq_false_2; [by eauto|].
    intros Hlen. by apply Hne, length_zero_iff_nil.
Qed.

(** X12. The loop stops at the first element that raises: the call raises
    that element's exception, after the warnings of the empty elements
    before it only, whatever the elements after it are. *)
Theorem parse_input_fails_fast `{Countable label} `{Countable node}
    (inv_dict_other : pyobj → result (gmap label (list node)))
    (X : pyobj) (pre post : list pyobj) (x : pyobj) (e : exn) :
  iterate X = Some (pre ++ x :: post) →
  no_abort inv_dict_other 0 pre →
  parse_element inv_dict_other (length pre) x = Abort e →
  parse_input inv_dict_other X
  = (empty_warning <$> empty_indices 0 pre, Raise e).
Proof.
  intros HX Hpre Hx. unfold parse_input.
  rewrite HX, parse_loop_app_run by done. simpl. by rewrite Hx.
Qed.

Lemma parse_input_fails_fast_witness :
  iterate (PyList ([PyList []; PyGraph graph_0a] ++ PyOther :: [PyList []]))
  = Some ([PyList []; PyGraph graph_0a] ++ PyOther :: [PyList []])
  ∧ no_abort inv_dict_raises 0 [PyList []; PyGraph graph_0a]
  ∧ parse_element inv_dict_raises 2 PyOther = Abort (ValueError malformed_msg)
  ∧ parse_input inv_dict_raises
      (PyList ([PyList []; PyGraph graph_0a] ++ PyOther :: [PyList []]))
    = ([empty_warning 0], Raise (ValueError malformed_msg)).
Proof.
  assert (no_abort inv_dict_raises 0 [PyList []; PyGraph graph_0a]) as Hpre.
  { intros [|[|j]] y e Hy; simplify_eq/=; by vm_compute. }
  split; [reflexivity|]. split; [exact Hpre|]. split; [reflexivity|].
  exact (parse_input_fails_fast inv_dict_raises (PyList _)
           [PyList []; PyGraph graph_0a] [PyList []] PyOther _
           eq_refl Hpre eq_refl).
Defined.

(** X13. Parsing composes over concatenation: when the calls on two inputs
    return, the call on their concatenation returns the two lists of
    summaries one after the other; its warnings are those of the first input
    followed by those of the second with their indices shifted by the length
    of the first. *)
Theorem parse_input_app `{Countable label} `{Countable node}
    (inv_dict_other : pyobj → result (gmap label (list node)))
    (xs ys : list pyobj) (ws1 ws2 : list string)
    (Xp1 Xp2 : list (gmap label (list node))) :
  parse_input inv_dict_other (PyList xs) = (ws1, Ok Xp1) →
  parse_input inv_dict_other (PyList ys) = (ws2, Ok Xp2) →
  parse_input inv_dict_other (PyList (xs ++ ys))
  = (ws1 ++ (empty_warning <$> empty_indices (length xs) ys),
     Ok (Xp1 ++ Xp2)).
Proof.
  intros Hxs Hys.
  destruct (parse_input_ok_inv _ (PyList xs) _ _ _ eq_refl Hxs)
    as (Hna1 & -> & -> & Hne).
  destruct (parse_input_ok_inv _ (PyList ys) _ _ _ eq_refl Hys)
    as (Hna2 & _ & -> & _).
  assert (no_abort inv_dict_other (length xs) ys) as Hna2'.
  { intros j y e Hj Hy. apply (Hna2 j y e Hj).
    destruct (empty_element_cases y) as [Hemp|Hemp].
    - by rewrite (parse_element_empty _ _ y Hemp) in Hy.
    - by rewrite (parse_element_index _ (0 + j) (length xs + j) y Hemp). }
  unfold parse_input. simpl.
  rewrite parse_loop_app_run, parse_loop_run by done. simpl.
  rewrite bool_decide_eq_false_2; [done|].
  rewrite length_app. intros Hlen. apply Hne, length_zero_iff_nil. lia.
Qed.

Lemma parse_input_app_witness :
  parse_input inv_dict_raises (PyList [PyGraph graph_0a])
  = ([], Ok [inv_dict_map (get_labels graph_0a "any")])
  ∧ parse_input inv_dict_raises
      (PyList [PyList []; PyList [g1; PyDict labels_0a]])
    = ([empty_warning 0], Ok [inv_dict_map labels_0a])
  ∧ parse_input inv_dict_raises
      (PyList ([PyGraph graph_0a]
               ++ [PyList []; PyList [g1; PyDict labels_0a]]))
    = ([] ++ (empty_warning <$>
                empty_indices 1 [PyList []; PyList [g1; PyDict labels_0a]]),
       Ok ([inv_dict_map (get_labels graph_0a "any")]
           ++ [inv_dict_map labels_0a])).
Proof.
  assert (parse_input inv_dict_raises (PyList [PyGraph graph_0a])
          = ([], Ok [inv_dict_map (get_labels graph_0a "any")])) as H1
    by (by vm_compute).
  assert (parse_input inv_dict_raises
            (PyList [PyList []; PyList [g1; PyDict labels_0a]])
          = ([empty_warning 0], Ok [inv_dict_map labels_0a])) as H2
    by (by vm_compute).
  split; [exact H1|]. split; [exact H2|].
  exact (parse_input_app inv_dict_raises _ _ _ _ _ _ H1 H2).
Defined.

(** X14. Of an element given as an iterable of length 2 or 3, only the
    second item is read: two such elements with the same second item are
    treated alike, whatever their graph structure and edge labels and
    wherever they stand. *)
Theorem parse_element_second_item `{Countable label} `{Countable node}
    (inv_dict_other : pyobj → result (gmap label (list node)))
    (i j : nat) (x y : pyobj) (xs ys : list pyobj) :
  iterate x = Some xs → iterate y = Some ys →
  length xs ∈ [2; 3] → length ys ∈ [2; 3] →
  xs !! 1 = ys !! 1 →
  parse_element inv_dict_other i x = parse_element inv_dict_other j y.
Proof.
  intros Hx Hy Hlx Hly Hsnd.
  unfold parse_element, isinstance_Iterable, py_list. rewrite Hx, Hy. simpl.
  destruct xs as [|s [|l [|e [|??]]]]; simpl in Hlx;
    try (by exfalso; revert Hlx; apply (bool_decide_unpack _));
    destruct ys as [|s' [|l' [|e' [|??]]]]; simpl in Hly;
    try (by exfalso; revert Hly; apply (bool_decide_unpack _));
    simplify_eq/=; done.
Qed.

Lemma parse_element_second_item_witness :
  iterate (PyList [g1; PyDict labels_0a]) = Some [g1; PyDict labels_0a]
  ∧ iterate (PyList [PyOther; PyDict labels_0a; PyOther])
    = Some [PyOther; PyDict labels_0a; PyOther]
  ∧ parse_element inv_dict_raises 0 (PyList [g1; PyDict labels_0a])
    = parse_element inv_dict_raises 5
        (PyList [PyOther; PyDict labels_0a; PyOther]).
Proof.
  split; [reflexivity|]. split; [reflexivity|].
  apply (parse_element_second_item inv_dict_raises 0 5 _ _
           [g1; PyDict labels_0a] [PyOther; PyDict labels_0a; PyOther]);
    [reflexivity|reflexivity| | |reflexivity];
    by apply (bool_decide_unpack _).
Defined.

(** ** The score of two parsed graphs *)

Section end_to_end.
Context `{Countable label} `{Countable node}.
Implicit Types (a b : gmap label (list node)) (d : gmap node label).

(** Making the bucket of [l] one node longer raises the score with [b] by
    the size of the bucket of [l] in [b]. *)
Lemma pairwise_operation_grow a b l (vs : list node) :
  length vs = S (length (a !!! l)) →
  pairwise_operation (<[l := vs]> a) b
  = (pairwise_operation a b + bucket_len b l)%Z.
Proof.
  intros Hlen. set (D := {[l]} ∪ dom a ∪ dom b).
  rewrite (pairwise_operation_over _ b D), (pairwise_operation_over a b D);
    [|unfold D; intros x; rewrite ?dom_insert_L, !elem_of_union; tauto..].
  rewrite <-(sumZ_indicator (bucket_len b) (elements D) l);
    [|apply NoDup_elements|].
  2:{ apply elem_of_elements. unfold D.
      rewrite !elem_of_union, elem_of_singleton. tauto. }
  rewrite <-sumZ_add. apply sumZ_ext. intros x _. unfold bucket_len.
  destruct (decide (x = l)) as [->|Hne].
  - rewrite lookup_total_insert_eq, Hlen. lia.
  - rewrite lookup_total_insert_ne by done. lia.
Qed.

Lemma pairwise_operation_empty_l b :
  pairwise_operation (∅ : gmap label (list node)) b = 0%Z.
Proof.
  rewrite (pairwise_operation_over _ b (dom b)).
  - apply sumZ_zero. intros x _. rewrite bucket_len_absent; [lia|].
    apply lookup_empty.
  - rewrite dom_empty_L. intros x. rewrite elem_of_union, elem_of_empty. tauto.
Qed.

(** The bucket of [l] is as long as the number of nodes labelled [l]. *)
Lemma bucket_len_inv_dict_map d l :
  bucket_len (inv_dict_map d) l
  = sumZ (λ q, if decide (q.2 = l) then 1 else 0)%Z (map_to_list d).
Proof.
  induction d as [|i x d Hi Hfirst IH] using map_first_key_ind.
  - rewrite inv_dict_map_empty, map_to_list_empty.
    by apply bucket_len_absent, lookup_empty.
  - rewrite inv_dict_map_insert by done.
    rewrite (sumZ_perm _ _ _ (map_to_list_insert d i x Hi)), sumZ_cons, <-IH.
    unfold bucket_len. simpl. destruct (decide (x = l)) as [->|Hne].
    + rewrite lookup_total_insert_eq, length_app. simpl. lia.
    + rewrite lookup_total_insert_ne by done. lia.
Qed.
End end_to_end.

(** X15. The score of the summaries that the parser builds from two
    node-label mappings (the inversion being the grouping of nodes by label)
    is the number of pairs of a node of the first and a node of the second
    graph with equal labels, the kernel value of the class docstring. *)
Theorem pairwise_operation_counts_label_pairs
    `{Countable label} `{Countable node} (d1 d2 : gmap node label) :
  pairwise_operation (inv_dict_map d1) (inv_dict_map d2)
  = label_pair_count d1 d2.
Proof.
  unfold label_pair_count.
  induction d1 as [|i x d1 Hi Hfirst IH] using map_first_key_ind.
  - by rewrite inv_dict_map_empty, map_to_list_empty,
      pairwise_operation_empty_l.
  - rewrite inv_dict_map_insert by done.
    rewrite pairwise_operation_grow, IH, bucket_len_inv_dict_map.
    + rewrite (sumZ_perm _ _ _ (map_to_list_insert d1 i x Hi)), sumZ_cons.
      simpl. rewrite Z.add_comm. f_equal. apply sumZ_ext. intros q _.
      by repeat case_decide.
    + rewrite length_app. simpl. lia.
Qed.

(** ** The dataset check of the test module *)

(** Reading the two features raises no [TypeError] of the module. *)
Lemma lacks_labels_no_TypeError (d : option (gmap string bool)) msg :
  lacks_labels d ≠ Fails (TypeError msg).
Proof.
  unfold lacks_labels, info_item. destruct d as [m|]; [|done].
  destruct (m !! "nl") as [[]|]; [done| |done].
  by destruct (m !! "el").
Qed.

(** X16. In the check of the two datasets, the guard for the attribute
    dataset tests the value of the first lookup again: the error 'dataset for
    attributes not found' is never raised, and an unknown attribute dataset
    (after a first dataset that passes) ends in the [TypeError] of
    subscripting [None]. *)
Theorem check_datasets_attr_guard :
  (∀ dinfo dinfo_attr,
     check_datasets dinfo dinfo_attr
     ≠ Fails (TypeError "dataset for attributes not found"))
  ∧ (∀ dinfo, check_dataset dinfo = Done tt →
              check_datasets dinfo None = Fails NoneNotSubscriptable).
Proof.
  split.
  - intros dinfo dinfo_attr. unfold check_datasets.
    destruct dinfo as [m|]; [|done].
    destruct (check_dataset (Some m)) as [[]|e] eqn:Hfirst.
    + unfold check_dataset_attr.
      pose proof (lacks_labels_no_TypeError dinfo_attr
                    "dataset for attributes not found").
      by destruct (lacks_labels dinfo_attr) as [[]|?]; [..|congruence].
    + unfold check_dataset in Hfirst.
      pose proof (lacks_labels_no_TypeError (Some m)
                    "dataset for attributes not found").
      destruct (lacks_labels (Some m)) as [[]|?]; simplify_eq; congruence.
  - intros dinfo Hfirst. unfold check_datasets. rewrite Hfirst.
    by destruct dinfo.
Qed.

Lemma check_datasets_attr_guard_witness :
  check_dataset (Some {[ "nl" := true; "el" := false ]}) = Done tt
  ∧ check_datasets (Some {[ "nl" := true; "el" := false ]}) None
    = Fails NoneNotSubscriptable.
Proof.
  assert (check_dataset (Some {[ "nl" := true; "el" := false ]}) = Done tt)
    as Hfirst by (by vm_compute).
  split; [exact Hfirst|].
  exact (proj2 check_datasets_attr_guard _ Hfirst).
Defined.
